(** * todo-go: the CSV-backed task tracker of goStuff

    A shallow embedding of [src/todo-go/main.go] and of the pieces of the Go
    standard library it calls ([strconv], [time] for the RFC3339 layout,
    [encoding/csv]), followed by the properties of the task store.

    Conventions.
    - A Go [string] is an immutable byte sequence: [bytes := list ascii].
    - A Go [int] is a 64-bit two's complement integer: a [Z] kept in
      [minInt .. maxInt], with the wrap-around of [+] written out ([wrap]).
    - A [time.Time] is represented by its civil reading in its own zone, its
      nanoseconds and the zone offset in seconds.  This determines the instant
      and the offset; the zone name, the identity of the [*Location] and the
      monotonic clock reading are not represented.
    - The data file is the only file the program touches: the disk is an
      [option bytes] ([None]: the path does not exist).  Opening, locking,
      writing and closing are taken to succeed; the exclusive lock has no
      effect on a single sequential run.
    - A command returns [Ok], an error value ([Err]) or stops in a run-time
      panic ([Panic]). *)

From Stdlib Require Import ZArith Ascii String Bool Lia Arith FinFun.
From Stdlib Require Import List.
Import ListNotations.

Local Open Scope Z_scope.

(** ** Bytes and Go ints *)

Definition bytes := list ascii.

Definition str (s : string) : bytes := list_ascii_of_string s.

Definition byte_eqb (a b : ascii) : bool := Ascii.eqb a b.

Fixpoint bytes_eqb (a b : bytes) : bool :=
  match a, b with
  | [], [] => true
  | x :: a', y :: b' => byte_eqb x y && bytes_eqb a' b'
  | _, _ => false
  end.

Definition LF : ascii := ascii_of_nat 10.
Definition CR : ascii := ascii_of_nat 13.
Definition QUOTE : ascii := ascii_of_nat 34.
Definition COMMA : ascii := ","%char.

Definition maxInt : Z := 9223372036854775807.
Definition minInt : Z := -9223372036854775808.
Definition maxUint64 : Z := 18446744073709551615.

(** Two's complement wrap-around of a 64-bit signed result. *)
Definition wrap (z : Z) : Z := (z + 2 ^ 63) mod 2 ^ 64 - 2 ^ 63.

Definition isInt (z : Z) : Prop := minInt <= z <= maxInt.

(** ** Outcomes *)

Inductive csvError : Type :=
| ErrBareQuote
| ErrQuote
| ErrFieldCount.

Inductive error : Type :=
| ErrReadCSV (e : csvError)      (* "failed to read CSV: %w" *)
| ErrInvalidID (arg : bytes)     (* "invalid task ID: %s" *)
| ErrNotFound (id : Z).          (* "task with ID %d not found" *)

(** [FuelExhausted] is not a Go panic: it is what the bounded model of the
    CSV reader returns when its bound is too small, which [ReadAll_total]
    below excludes. *)
Inductive panic : Type :=
| IndexOutOfRange (i : nat) (len : nat)   (* index out of range [i] with length len *)
| MakesliceCap (cap : Z)                  (* makeslice: cap out of range *)
| FuelExhausted.

Inductive outcome (A : Type) : Type :=
| Ok (a : A)
| Err (e : error)
| Panic (p : panic).

Arguments Ok {A} a.
Arguments Err {A} e.
Arguments Panic {A} p.

(** ** time.Time *)

Record Time : Type := mkTime {
  year : Z;
  month : Z;
  day : Z;
  hour : Z;
  minute : Z;
  second : Z;
  nsec : Z;
  offset : Z
}.

(** The zero value [time.Time{}]: January 1, year 1, 00:00:00 UTC. *)
Definition zeroTime : Time := mkTime 1 1 1 0 0 0 0 0.

Definition isLeap (y : Z) : bool :=
  (y mod 4 =? 0) && (negb (y mod 100 =? 0) || (y mod 400 =? 0)).

Definition daysIn (m y : Z) : Z :=
  if m =? 2 then (if isLeap y then 29 else 28)
  else if (m =? 4) || (m =? 6) || (m =? 9) || (m =? 11) then 30
  else 31.

Definition validTime (t : Time) : Prop :=
  isInt (year t) /\
  1 <= month t <= 12 /\
  1 <= day t <= daysIn (month t) (year t) /\
  0 <= hour t <= 23 /\
  0 <= minute t <= 59 /\
  0 <= second t <= 59 /\
  0 <= nsec t <= 999999999 /\
  isInt (offset t).

(** ** The task record (main.go, lines 17-22) *)

Record Task : Type := mkTask {
  ID : Z;
  Description : bytes;
  CreatedAt : Time;
  IsCompleted : bool
}.

(** ** getNextID (main.go, lines 119-127) *)

Fixpoint getNextID_loop (tasks : list Task) (maxID : Z) : Z :=
  match tasks with
  | [] => maxID
  | task :: rest =>
      getNextID_loop rest (if ID task >? maxID then ID task else maxID)
  end.

Definition getNextID (tasks : list Task) : Z :=
  wrap (getNextID_loop tasks 0 + 1).

(** ** The in-memory loops of the commands *)

(** completeCmd, lines 211-218: mark the first task with the given ID and
    stop.  The result pairs the updated slice with [found]. *)
Fixpoint complete_loop (id : Z) (tasks : list Task) : list Task * bool :=
  match tasks with
  | [] => ([], false)
  | t :: rest =>
      if ID t =? id
      then (mkTask (ID t) (Description t) (CreatedAt t) true :: rest, true)
      else let (rest', found) := complete_loop id rest in (t :: rest', found)
  end.

(** deleteCmd, lines 250-256: copy every task whose ID differs. *)
Fixpoint delete_loop (id : Z) (tasks : list Task) (newTasks : list Task)
    (found : bool) : list Task * bool :=
  match tasks with
  | [] => (newTasks, found)
  | task :: rest =>
      if ID task =? id
      then delete_loop id rest newTasks true
      else delete_loop id rest (newTasks ++ [task]) found
  end.

(** ** strconv *)

Definition isDigit (c : ascii) : bool :=
  let n := nat_of_ascii c in ((48 <=? n) && (n <=? 57))%nat.

Definition digitVal (c : ascii) : Z := Z.of_nat (nat_of_ascii c) - 48.

Definition digitChar (d : Z) : ascii := ascii_of_nat (Z.to_nat (48 + d)).

(** The decimal digits of an unsigned 64-bit value, most significant first
    (strconv.formatBits, base 10); twenty digits are enough for [maxUint64]. *)
Fixpoint formatBits_loop (fuel : nat) (u : Z) (acc : bytes) : bytes :=
  match fuel with
  | O => acc
  | S f =>
      if u <? 10 then digitChar u :: acc
      else formatBits_loop f (u / 10) (digitChar (u mod 10) :: acc)
  end.

Definition formatUint (u : Z) : bytes := formatBits_loop 20 u [].

(** strconv.Itoa = FormatInt(int64(i), 10). *)
Definition Itoa (i : Z) : bytes :=
  if i <? 0 then "-"%char :: formatUint (- i) else formatUint i.

Inductive numError : Type := ErrSyntax | ErrRange.

(** The fast path of strconv.Atoi: plain accumulation, any byte that is not a
    digit is a syntax error. *)
Fixpoint atoi_fast_loop (s : bytes) (n : Z) : option Z :=
  match s with
  | [] => Some n
  | ch :: s' =>
      if isDigit ch then atoi_fast_loop s' (n * 10 + digitVal ch) else None
  end.

Definition cutoff10 : Z := maxUint64 / 10 + 1.

(** The loop of strconv.ParseUint for base 10 and bit size 64: a bad byte is a
    syntax error (value 0), an overflow met before any bad byte is a range
    error (value [maxUint64]). *)
Fixpoint parseUint_loop (s : bytes) (n : Z) : Z * option numError :=
  match s with
  | [] => (n, None)
  | c :: s' =>
      if isDigit c then
        if n >=? cutoff10 then (maxUint64, Some ErrRange)
        else
          let n1 := n * 10 + digitVal c in
          if n1 >? maxUint64 then (maxUint64, Some ErrRange)
          else parseUint_loop s' n1
      else (0, Some ErrSyntax)
  end.

Definition ParseUint (s : bytes) : Z * option numError :=
  match s with
  | [] => (0, Some ErrSyntax)
  | _ => parseUint_loop s 0
  end.

Definition ParseInt (s : bytes) : Z * option numError :=
  match s with
  | [] => (0, Some ErrSyntax)
  | c :: s' =>
      let neg := byte_eqb c "-"%char in
      let body := if byte_eqb c "+"%char || neg then s' else s in
      let (un, err) := ParseUint body in
      match err with
      | Some ErrSyntax => (0, Some ErrSyntax)
      | _ =>
          if negb neg && (un >=? 2 ^ 63) then (maxInt, Some ErrRange)
          else if neg && (un >? 2 ^ 63) then (minInt, Some ErrRange)
          else (if neg then wrap (- wrap un) else wrap un, None)
      end
  end.

(** strconv.Atoi: the value and the error it returns with it. *)
Definition Atoi (s : bytes) : Z * option numError :=
  let sLen := length s in
  if ((0 <? sLen) && (sLen <? 19))%nat then
    match s with
    | [] => (0, Some ErrSyntax)
    | c :: s' =>
        let signed := byte_eqb c "-"%char || byte_eqb c "+"%char in
        let body := if signed then s' else s in
        if signed && (length body <? 1)%nat then (0, Some ErrSyntax)
        else
          match atoi_fast_loop body 0 with
          | None => (0, Some ErrSyntax)
          | Some n => (if byte_eqb c "-"%char then - n else n, None)
          end
    end
  else ParseInt s.

Definition FormatBool (b : bool) : bytes :=
  if b then str "true" else str "false".

(** strconv.ParseBool: [None] is the error, returned with the value false. *)
Definition ParseBool (s : bytes) : option bool :=
  if existsb (bytes_eqb s)
       [str "1"; str "t"; str "T"; str "TRUE"; str "true"; str "True"]
  then Some true
  else if existsb (bytes_eqb s)
       [str "0"; str "f"; str "F"; str "FALSE"; str "false"; str "False"]
  then Some false
  else None.

(** ** time: Format and Parse for the layout time.RFC3339 *)

(** time.appendInt: sign, zero padding to [width], decimal digits. *)
Definition appendInt (x : Z) (width : nat) : bytes :=
  let ds := formatUint (Z.abs x) in
  (if x <? 0 then ["-"%char] else [])
    ++ repeat "0"%char (width - length ds) ++ ds.

Definition formatZone (off : Z) : bytes :=
  if off =? 0 then ["Z"%char]
  else
    let zone := Z.quot off 60 in
    let sign := if zone <? 0 then "-"%char else "+"%char in
    let zone := if zone <? 0 then - zone else zone in
    sign :: appendInt (zone / 60) 2 ++ ":"%char :: appendInt (zone mod 60) 2.

(** t.Format(time.RFC3339): "2006-01-02T15:04:05Z07:00". *)
Definition formatRFC3339 (t : Time) : bytes :=
  appendInt (year t) 4 ++ "-"%char ::
  appendInt (month t) 2 ++ "-"%char ::
  appendInt (day t) 2 ++ "T"%char ::
  appendInt (hour t) 2 ++ ":"%char ::
  appendInt (minute t) 2 ++ ":"%char ::
  appendInt (second t) 2 ++ formatZone (offset t).

(** time.getnum: one or two digits; exactly two when [fixed]. *)
Definition getnum (s : bytes) (fixed : bool) : option (Z * bytes) :=
  match s with
  | c0 :: s1 =>
      if isDigit c0 then
        match s1 with
        | c1 :: s2 =>
            if isDigit c1 then Some (digitVal c0 * 10 + digitVal c1, s2)
            else if fixed then None else Some (digitVal c0, s1)
        | [] => if fixed then None else Some (digitVal c0, s1)
        end
      else None
  | [] => None
  end.

(** time.skip for a one-byte literal of the layout. *)
Definition skip (value : bytes) (lit : ascii) : option bytes :=
  match value with
  | c :: v => if byte_eqb c lit then Some v else None
  | [] => None
  end.

Fixpoint spanDigits (s : bytes) : bytes * bytes :=
  match s with
  | c :: s' =>
      if isDigit c then let (ds, r) := spanDigits s' in (c :: ds, r)
      else ([], s)
  | [] => ([], [])
  end.

Fixpoint decVal (ds : bytes) (n : Z) : Z :=
  match ds with
  | [] => n
  | c :: ds' => decVal ds' (n * 10 + digitVal c)
  end.

(** The fractional second read after the seconds field although the layout
    has none: a comma or period followed by digits; at most nine digits
    count (time.parseNanoseconds). *)
Definition parseFraction (value : bytes) : Z * bytes :=
  match value with
  | c :: v =>
      if (byte_eqb c ","%char || byte_eqb c "."%char)
         && match v with d :: _ => isDigit d | [] => false end
      then
        let (ds, r) := spanDigits v in
        let ds9 := firstn 9 ds in
        (decVal ds9 0 * 10 ^ Z.of_nat (9 - length ds9), r)
      else (0, value)
  | [] => (0, value)
  end.

(** The zone chunk "Z07:00" of the layout. *)
Definition parseZone (value : bytes) : option (Z * bytes) :=
  match value with
  | "Z"%char :: v => Some (0, v)
  | sign :: h1 :: h2 :: colon :: m1 :: m2 :: v =>
      if negb (byte_eqb colon ":"%char) then None
      else
        match getnum [h1; h2] true, getnum [m1; m2] true with
        | Some (hr, _), Some (mm, _) =>
            if (hr >? 24) || (mm >? 60) then None
            else
              let zoneOffset := (hr * 60 + mm) * 60 in
              if byte_eqb sign "+"%char then Some (zoneOffset, v)
              else if byte_eqb sign "-"%char then Some (- zoneOffset, v)
              else None
        | _, _ => None
        end
  | _ => None
  end.

Definition bindO {A B : Type} (o : option A) (k : A -> option B) : option B :=
  match o with Some a => k a | None => None end.

Notation "x <- o ;; k" := (bindO o (fun x => k))
  (at level 61, o at next level, right associativity).
Notation "' p <- o ;; k" := (bindO o (fun x => let p := x in k))
  (at level 61, p pattern, o at next level, right associativity).

Definition guard (b : bool) : option unit := if b then Some tt else None.

(** time.Parse(time.RFC3339, value); [None] is the error, returned with the
    zero Time.  The chunks of the layout are read in order; the strict
    RFC3339 reader tried first by recent Go releases accepts a subset of
    these strings with the same result. *)
Definition parseRFC3339 (value : bytes) : option Time :=
  match value with
  | y1 :: y2 :: y3 :: y4 :: v =>
      _ <- guard (forallb isDigit [y1; y2; y3; y4]) ;;
      let yr := decVal [y1; y2; y3; y4] 0 in
      v <- skip v "-"%char ;;
      '(mo, v) <- getnum v true ;;
      _ <- guard ((1 <=? mo) && (mo <=? 12)) ;;
      v <- skip v "-"%char ;;
      '(dd, v) <- getnum v true ;;
      v <- skip v "T"%char ;;
      '(hh, v) <- getnum v false ;;
      _ <- guard (hh <? 24) ;;
      v <- skip v ":"%char ;;
      '(mi, v) <- getnum v true ;;
      _ <- guard (mi <? 60) ;;
      v <- skip v ":"%char ;;
      '(ss, v) <- getnum v true ;;
      _ <- guard (ss <? 60) ;;
      let (ns, v) := parseFraction v in
      '(off, v) <- parseZone v ;;
      _ <- guard (match v with [] => true | _ => false end) ;;
      _ <- guard ((1 <=? dd) && (dd <=? daysIn mo yr)) ;;
      Some (mkTime yr mo dd hh mi ss ns off)
  | _ => None
  end.

Definition timeParse (value : bytes) : Time :=
  match parseRFC3339 value with Some t => t | None => zeroTime end.

(** ** encoding/csv: Writer (Comma = ',', UseCRLF = false) *)

Definition byteZ (c : ascii) : Z := Z.of_nat (nat_of_ascii c).

(** unicode.IsSpace of the first rune of the field, read off its UTF-8
    bytes: the ASCII blanks, U+0085, U+00A0, U+1680, U+2000..U+200A, U+2028,
    U+2029, U+202F, U+205F and U+3000. *)
Definition leadingSpace (field : bytes) : bool :=
  match map byteZ field with
  | b0 :: tl0 =>
      if b0 <? 128 then ((9 <=? b0) && (b0 <=? 13)) || (b0 =? 32)
      else
        match tl0 with
        | b1 :: tl1 =>
            if b0 =? 194 then (b1 =? 133) || (b1 =? 160)
            else
              match tl1 with
              | b2 :: _ =>
                  ((b0 =? 225) && (b1 =? 154) && (b2 =? 128))
                  || ((b0 =? 226) && (b1 =? 128)
                      && (((128 <=? b2) && (b2 <=? 138))
                          || (b2 =? 168) || (b2 =? 169) || (b2 =? 175)))
                  || ((b0 =? 226) && (b1 =? 129) && (b2 =? 159))
                  || ((b0 =? 227) && (b1 =? 128) && (b2 =? 128))
              | [] => false
              end
        | [] => false
        end
  | [] => false
  end.

Definition isSpecial (c : ascii) : bool :=
  byte_eqb c LF || byte_eqb c CR || byte_eqb c QUOTE || byte_eqb c COMMA.

Definition fieldNeedsQuotes (field : bytes) : bool :=
  match field with
  | [] => false
  | _ =>
      bytes_eqb field ["\"%char; "."%char]
      || existsb isSpecial field
      || leadingSpace field
  end.

(** Inside a quoted field a quote is doubled; CR and LF are copied. *)
Fixpoint escapeQuoted (field : bytes) : bytes :=
  match field with
  | [] => []
  | c :: f =>
      if byte_eqb c QUOTE then QUOTE :: QUOTE :: escapeQuoted f
      else c :: escapeQuoted f
  end.

Definition writeField (field : bytes) : bytes :=
  if fieldNeedsQuotes field then QUOTE :: escapeQuoted field ++ [QUOTE]
  else field.

Fixpoint writeFields (record : list bytes) : bytes :=
  match record with
  | [] => []
  | [field] => writeField field
  | field :: rest => writeField field ++ COMMA :: writeFields rest
  end.

(** Writer.Write: the fields separated by commas, then a line feed. *)
Definition csvWrite (record : list bytes) : bytes :=
  writeFields record ++ [LF].

(** ** encoding/csv: Reader (defaults: Comma = ',', no comment byte,
    FieldsPerRecord = 0, LazyQuotes and TrimLeadingSpace off) *)

Definition lengthNL (b : bytes) : nat :=
  match rev b with
  | c :: _ => if byte_eqb c LF then 1%nat else 0%nat
  | [] => 0%nat
  end.

Fixpoint IndexByte (b : bytes) (c : ascii) : option nat :=
  match b with
  | [] => None
  | x :: b' =>
      if byte_eqb x c then Some 0%nat
      else match IndexByte b' c with Some i => Some (S i) | None => None end
  end.

(** bufio ReadSlice('\n'): the bytes up to and including the first LF. *)
Fixpoint splitLine (input : bytes) : bytes * bytes :=
  match input with
  | [] => ([], [])
  | c :: r =>
      if byte_eqb c LF then ([c], r)
      else let (l, r') := splitLine r in (c :: l, r')
  end.

Definition dropTrailingCR (line : bytes) : bytes :=
  match rev line with
  | c :: r => if byte_eqb c CR then rev r else line
  | [] => line
  end.

Definition normalizeCRLF (line : bytes) : bytes :=
  match rev line with
  | c1 :: c2 :: r =>
      if byte_eqb c1 LF && byte_eqb c2 CR then rev (c1 :: r) else line
  | _ => line
  end.

(** Reader.readLine: [None] is io.EOF.  A last line without LF loses a
    trailing CR; CR LF at the end of a line becomes LF. *)
Definition readLine (input : bytes) : option (bytes * bytes) :=
  match input with
  | [] => None
  | _ =>
      let (line, rest) := splitLine input in
      let line := if (lengthNL line =? 1)%nat then line
                  else dropTrailingCR line in
      Some (normalizeCRLF line, rest)
  end.

Inductive readResult : Type :=
| RecOk (record : list bytes) (rest : bytes)
| RecErr (e : csvError)
| RecEOF
| RecFuel.

Definition hasQuote (field : bytes) : bool := existsb (byte_eqb QUOTE) field.

(** The [parseField] loop of Reader.readRecord and its inner loop over a
    quoted field.  [line] is the unread part of the current line, [rest] the
    input after it, [acc] the fields read so far, [buf] the bytes of the
    quoted field read so far.  Every call consumes input; [fuel] bounds the
    number of calls. *)
Fixpoint parseField (fuel : nat) (line rest : bytes) (acc : list bytes)
    {struct fuel} : readResult :=
  match fuel with
  | O => RecFuel
  | S f =>
      let unquoted :=
        match IndexByte line COMMA with
        | Some i =>
            let field := firstn i line in
            if hasQuote field then RecErr ErrBareQuote
            else parseField f (skipn (S i) line) rest (acc ++ [field])
        | None =>
            let field := firstn (length line - lengthNL line) line in
            if hasQuote field then RecErr ErrBareQuote
            else RecOk (acc ++ [field]) rest
        end in
      match line with
      | c :: line' =>
          if byte_eqb c QUOTE then parseQuoted f line' rest [] acc
          else unquoted
      | [] => unquoted
      end
  end
with parseQuoted (fuel : nat) (line rest buf : bytes) (acc : list bytes)
    {struct fuel} : readResult :=
  match fuel with
  | O => RecFuel
  | S f =>
      match IndexByte line QUOTE with
      | Some i =>
          let buf' := buf ++ firstn i line in
          let line' := skipn (S i) line in
          match line' with
          | c :: line'' =>
              if byte_eqb c QUOTE
              then parseQuoted f line'' rest (buf' ++ [QUOTE]) acc
              else if byte_eqb c COMMA
              then parseField f line'' rest (acc ++ [buf'])
              else if (lengthNL line' =? length line')%nat
              then RecOk (acc ++ [buf']) rest
              else RecErr ErrQuote
          | [] => RecOk (acc ++ [buf']) rest
          end
      | None =>
          match line with
          | [] => RecErr ErrQuote
          | _ =>
              match readLine rest with
              | Some (l, r) => parseQuoted f l r (buf ++ line) acc
              | None => parseQuoted f [] [] (buf ++ line) acc
              end
          end
      end
  end.

(** Reader.readRecord: skip empty lines, then parse the fields. *)
Fixpoint readRecord (fuel : nat) (input : bytes) : readResult :=
  match fuel with
  | O => RecFuel
  | S f =>
      match readLine input with
      | None => RecEOF
      | Some (line, rest) =>
          if (length line =? lengthNL line)%nat then readRecord f rest
          else parseField (2 + length line + length rest) line rest []
      end
  end.

Inductive csvResult : Type :=
| CsvOk (records : list (list bytes))
| CsvErr (e : csvError)
| CsvFuel.

(** Reader.ReadAll; [fieldsPerRecord] is 0 until the first record sets it. *)
Fixpoint readAll_loop (fuel : nat) (input : bytes) (fieldsPerRecord : nat)
    (records : list (list bytes)) : csvResult :=
  match fuel with
  | O => CsvFuel
  | S f =>
      match readRecord (S (length input)) input with
      | RecEOF => CsvOk records
      | RecErr e => CsvErr e
      | RecFuel => CsvFuel
      | RecOk record rest =>
          if (0 <? fieldsPerRecord)%nat then
            if (length record =? fieldsPerRecord)%nat
            then readAll_loop f rest fieldsPerRecord (records ++ [record])
            else CsvErr ErrFieldCount
          else readAll_loop f rest (length record) (records ++ [record])
      end
  end.

Definition ReadAll (input : bytes) : csvResult :=
  readAll_loop (S (length input)) input 0 [].

(** ** The record codec of main.go *)

Definition header : list bytes :=
  [str "ID"; str "Description"; str "CreatedAt"; str "IsCompleted"].

(** The record written for a task (saveTasks, lines 106-111). *)
Definition encode (task : Task) : list bytes :=
  [Itoa (ID task); Description task; formatRFC3339 (CreatedAt task);
   FormatBool (IsCompleted task)].

Definition bindR {A B : Type} (o : outcome A) (k : A -> outcome B)
    : outcome B :=
  match o with
  | Ok a => k a
  | Err e => Err e
  | Panic p => Panic p
  end.

Notation "x <~ o ;; k" := (bindR o (fun x => k))
  (at level 61, o at next level, right associativity).

(** [record[i]]: an index outside the slice is a run-time panic. *)
Definition index (record : list bytes) (i : nat) : outcome bytes :=
  match nth_error record i with
  | Some field => Ok field
  | None => Panic (IndexOutOfRange i (length record))
  end.

Definition parseBoolOrFalse (s : bytes) : bool :=
  match ParseBool s with Some b => b | None => false end.

(** The task read from a record (loadTasks, lines 73-82); the three errors
    are discarded and the values returned with them are kept. *)
Definition decode (record : list bytes) : outcome Task :=
  f0 <~ index record 0 ;;
  let id := fst (Atoi f0) in
  f2 <~ index record 2 ;;
  let createdAt := timeParse f2 in
  f3 <~ index record 3 ;;
  let isComplete := parseBoolOrFalse f3 in
  f1 <~ index record 1 ;;
  Ok (mkTask id f1 createdAt isComplete).

Fixpoint decodeAll (records : list (list bytes)) (tasks : list Task)
    : outcome (list Task) :=
  match records with
  | [] => Ok tasks
  | record :: rest =>
      task <~ decode record ;;
      decodeAll rest (tasks ++ [task])
  end.

(** ** The data file *)

(** [disk] is the content of the data file, [saves] the task lists handed
    to saveTasks so far (a ghost trace, oldest first). *)
Record World : Type := mkWorld {
  disk : option bytes;
  saves : list (list Task)
}.

(** loadFile (lines 35-47): O_RDWR|O_CREATE, no O_TRUNC, no O_APPEND.  The
    file is created empty when absent; the handle starts at offset 0.
    closeFile (lines 49-52) unlocks and closes: it leaves the content as
    it is. *)
Definition loadFile (w : World) : bytes * World :=
  match disk w with
  | Some content => (content, w)
  | None => ([], mkWorld (Some []) (saves w))
  end.

(** loadTasks (lines 54-86): the first record is skipped. *)
Definition loadTasks (w : World) : outcome (list Task) * World :=
  let (content, w1) := loadFile w in
  match ReadAll content with
  | CsvOk records => (decodeAll (tl records) [], w1)
  | CsvErr e => (Err (ErrReadCSV e), w1)
  | CsvFuel => (Panic FuelExhausted, w1)
  end.

(** The bytes saveTasks hands to the writer: the header, then one record per
    task in order. *)
Definition serialize (tasks : list Task) : bytes :=
  csvWrite header ++ concat (map (fun task => csvWrite (encode task)) tasks).

(** Writing [new] at offset 0 of a file holding [old]: the bytes of [old]
    beyond the end of [new] stay. *)
Definition overwrite (old new : bytes) : bytes :=
  new ++ skipn (length new) old.

(** saveTasks (lines 88-117): the writer is flushed into the handle
    loadFile returned, and nothing truncates the file. *)
Definition saveTasks (tasks : list Task) (w : World) : World :=
  let (content, w1) := loadFile w in
  mkWorld (Some (overwrite content (serialize tasks))) (saves w1 ++ [tasks]).

(** ** The commands *)

Inductive output : Type :=
| Added (id : Z) (description : bytes)   (* "Added tasks %d: %s\n" *)
| Completed (id : Z)                     (* "Marked task %d as complete\n" *)
| Deleted (id : Z).                      (* "Deleted task %d\n" *)

(** addCmd (lines 138-158); [now] is the value of time.Now(). *)
Definition addCmd (description : bytes) (now : Time) (w : World)
    : outcome output * World :=
  let (r, w1) := loadTasks w in
  match r with
  | Ok tasks =>
      let newTask := mkTask (getNextID tasks) description now false in
      let w2 := saveTasks (tasks ++ [newTask]) w1 in
      (Ok (Added (ID newTask) (Description newTask)), w2)
  | Err e => (Err e, w1)
  | Panic p => (Panic p, w1)
  end.

(** completeCmd (lines 200-230). *)
Definition completeCmd (arg : bytes) (w : World) : outcome output * World :=
  match Atoi arg with
  | (_, Some _) => (Err (ErrInvalidID arg), w)
  | (id, None) =>
      let (r, w1) := loadTasks w in
      match r with
      | Ok tasks =>
          let (tasks', found) := complete_loop id tasks in
          if negb found then (Err (ErrNotFound id), w1)
          else (Ok (Completed id), saveTasks tasks' w1)
      | Err e => (Err e, w1)
      | Panic p => (Panic p, w1)
      end
  end.

(** deleteCmd (lines 237-268); [make] with a negative capacity panics. *)
Definition deleteCmd (arg : bytes) (w : World) : outcome output * World :=
  match Atoi arg with
  | (_, Some _) => (Err (ErrInvalidID arg), w)
  | (id, None) =>
      let (r, w1) := loadTasks w in
      match r with
      | Ok tasks =>
          let cap := Z.of_nat (length tasks) - 1 in
          if cap <? 0 then (Panic (MakesliceCap cap), w1)
          else
            let (newTasks, found) := delete_loop id tasks [] false in
            if negb found then (Err (ErrNotFound id), w1)
            else (Ok (Deleted id), saveTasks newTasks w1)
      | Err e => (Err e, w1)
      | Panic p => (Panic p, w1)
      end
  end.

(** listCmd (lines 164-193).  The lines handed to the tabwriter, cells
    separated by tabs; the column alignment it applies is not modelled.
    [TimeDiff] stands for timediff.TimeDiff at the instant of the call. *)
Definition TAB : ascii := ascii_of_nat 9.

Definition listHeader (showAll : bool) : bytes :=
  if showAll
  then str "ID" ++ TAB :: str "Task" ++ TAB :: str "Created" ++ TAB
         :: str "Done" ++ [LF]
  else str "ID" ++ TAB :: str "Task" ++ TAB :: str "Created" ++ [LF].

Section ListCmd.

Variable TimeDiff : Time -> bytes.

Fixpoint listCmd_loop (showAll : bool) (tasks : list Task) : list bytes :=
  match tasks with
  | [] => []
  | task :: rest =>
      if negb showAll && IsCompleted task then listCmd_loop showAll rest
      else
        let timeAgo := TimeDiff (CreatedAt task) in
        (if showAll then
           Itoa (ID task) ++ TAB :: Description task ++ TAB :: timeAgo
             ++ TAB :: FormatBool (IsCompleted task) ++ [LF]
         else
           Itoa (ID task) ++ TAB :: Description task ++ TAB :: timeAgo
             ++ [LF])
        :: listCmd_loop showAll rest
  end.

Definition listCmd_print (showAll : bool) (tasks : list Task)
    : list bytes :=
  listHeader showAll :: listCmd_loop showAll tasks.

Definition listCmd (showAll : bool) (w : World)
    : outcome (list bytes) * World :=
  let (r, w1) := loadTasks w in
  match r with
  | Ok tasks => (Ok (listCmd_print showAll tasks), w1)
  | Err e => (Err e, w1)
  | Panic p => (Panic p, w1)
  end.

End ListCmd.

(** A store history: the mutating commands in the order they are run. *)
Inductive op : Type :=
| OpAdd (description : bytes) (now : Time)
| OpComplete (arg : bytes)
| OpDelete (arg : bytes).

Definition runOp (o : op) (w : World) : outcome output * World :=
  match o with
  | OpAdd description now => addCmd description now w
  | OpComplete arg => completeCmd arg w
  | OpDelete arg => deleteCmd arg w
  end.

(** Every command of the history is run, whatever the earlier ones
    returned (each is a separate invocation of the tool). *)
Fixpoint run (history : list op) (w : World)
    : list (outcome output) * World :=
  match history with
  | [] => ([], w)
  | o :: rest =>
      let (r, w1) := runOp o w in
      let (rs, w2) := run rest w1 in
      (r :: rs, w2)
  end.

Definition emptyStore : World := mkWorld None [].

(** * Vocabulary of the properties *)

(** ** Tasks the codec reproduces *)

Definition noLF (s : bytes) : Prop := ~ In LF s.

(** A record of [n] fields, none holding a line feed. *)
Definition plainRecord (n : nat) (r : list bytes) : Prop :=
  length r = n /\ Forall noLF r.

(** A reading the RFC3339 layout can carry, up to the nanoseconds: a
    four-digit year and a zone offset of whole minutes that the parser
    accepts (at most 24:59). *)
Definition clockTime (t : Time) : Prop :=
  0 <= year t <= 9999 /\
  1 <= month t <= 12 /\
  1 <= day t <= daysIn (month t) (year t) /\
  0 <= hour t <= 23 /\
  0 <= minute t <= 59 /\
  0 <= second t <= 59 /\
  0 <= nsec t <= 999999999 /\
  Z.rem (offset t) 60 = 0 /\
  -89940 <= offset t <= 89940.

Definition wholeSecond (t : Time) : Prop := clockTime t /\ nsec t = 0.

Definition truncSecond (t : Time) : Time :=
  mkTime (year t) (month t) (day t) (hour t) (minute t) (second t) 0
    (offset t).

(** A task saveTasks writes so that loadTasks finds it again, up to the
    nanoseconds of its timestamp. *)
Definition writable (task : Task) : Prop :=
  isInt (ID task) /\ noLF (Description task) /\ clockTime (CreatedAt task).

(** What loadTasks returns for a writable task: the nanoseconds are gone. *)
Definition reload (task : Task) : Task :=
  mkTask (ID task) (Description task) (truncSecond (CreatedAt task))
    (IsCompleted task).

(** A task that comes back as it was saved. *)
Definition storable (task : Task) : Prop :=
  isInt (ID task) /\ noLF (Description task) /\ wholeSecond (CreatedAt task).

(** A Task of the data model: positive ID, single-line description, a
    timestamp with its zone. *)
Definition validTask (task : Task) : Prop :=
  0 < ID task <= maxInt /\ noLF (Description task)
  /\ validTime (CreatedAt task).

(** The largest ID of a non-empty task list. *)
Definition maxID (task : Task) (tasks : list Task) : Z :=
  fold_left Z.max (map ID tasks) (ID task).

(** ** Stores and histories *)

(** The bytes a handle on the data file reads. *)
Definition fileContent (w : World) : bytes :=
  match disk w with Some content => content | None => [] end.

Definition storeOf (tasks : list Task) : World :=
  mkWorld (Some (serialize tasks)) [].

(** An empty store: no file, an empty file, or the header alone. *)
Definition freshStore (w : World) : Prop :=
  disk w = None \/ disk w = Some [] \/ disk w = Some (serialize []).

(** The store holds [tasks]: the file is what saveTasks writes for them, or
    the store is fresh and there are none. *)
Definition storeHolds (w : World) (tasks : list Task) : Prop :=
  Forall writable tasks
  /\ (disk w = Some (serialize tasks) \/ (tasks = [] /\ freshStore w)).

(** An add with a single-line description, at a clock reading the layout
    can carry. *)
Definition addable (a : bytes * Time) : Prop :=
  noLF (fst a) /\ clockTime (snd a).

Definition addOps (adds : list (bytes * Time)) : list op :=
  map (fun a => OpAdd (fst a) (snd a)) adds.

(** The results of successful adds numbered from [first]. *)
Definition addedFrom (first : nat) (adds : list (bytes * Time))
    : list (outcome output) :=
  map (fun p => Ok (Added (Z.of_nat (fst p)) (fst (snd p))))
    (combine (seq first (length adds)) adds).

(** The IDs the adds of a history assigned, in order. *)
Definition assignedIDs (results : list (outcome output)) : list Z :=
  flat_map (fun r => match r with Ok (Added id _) => [id] | _ => [] end)
    results.

Fixpoint increasing (l : list Z) : bool :=
  match l with
  | a :: ((b :: _) as rest) => (a <? b) && increasing rest
  | _ => true
  end.

(** ** The rows of listCmd *)

Definition rowOpen (TimeDiff : Time -> bytes) (task : Task) : bytes :=
  Itoa (ID task) ++ TAB :: Description task ++ TAB
    :: TimeDiff (CreatedAt task) ++ [LF].

Definition rowAll (TimeDiff : Time -> bytes) (task : Task) : bytes :=
  Itoa (ID task) ++ TAB :: Description task ++ TAB
    :: TimeDiff (CreatedAt task) ++ TAB
    :: FormatBool (IsCompleted task) ++ [LF].

(** ** Decoding, as specified and as coded *)

(** The record decoding as the specification words it: a field that does
    not parse becomes the zero value of its type. *)
Definition decodeOrZero (record : list bytes) : Task :=
  mkTask
    (match Atoi (nth 0 record []) with (v, None) => v | (_, Some _) => 0 end)
    (nth 1 record [])
    (match parseRFC3339 (nth 2 record []) with
     | Some t => t
     | None => zeroTime
     end)
    (match ParseBool (nth 3 record []) with Some b => b | None => false end).

(** What the code decodes a record of at least four fields to. *)
Definition decodedFrom (record : list bytes) (task : Task) : Prop :=
  let f0 := nth 0 record [] in
  let f2 := nth 2 record [] in
  let f3 := nth 3 record [] in
  Description task = nth 1 record []
  /\ ID task = fst (Atoi f0)
  /\ (snd (Atoi f0) = Some ErrSyntax -> ID task = 0)
  /\ (snd (Atoi f0) = Some ErrRange -> ID task = maxInt \/ ID task = minInt)
  /\ (forall t, parseRFC3339 f2 = Some t -> CreatedAt task = t)
  /\ (parseRFC3339 f2 = None -> CreatedAt task = zeroTime)
  /\ (forall b, ParseBool f3 = Some b -> IsCompleted task = b)
  /\ (ParseBool f3 = None -> IsCompleted task = false).

(** ** Laws of the specification that the code does not have *)

(** Save then load returns what was saved, whatever the file held. *)
Definition saveLoadLaw : Prop :=
  forall (w : World) (tasks : list Task),
    Forall validTask tasks ->
    fst (loadTasks (saveTasks tasks w)) = Ok tasks.

(** Decoding the record of a valid task returns the task. *)
Definition codecLaw : Prop :=
  forall task : Task, validTask task -> decode (encode task) = Ok task.

(** The IDs assigned by the adds of a history strictly increase. *)
Definition idsIncreaseLaw : Prop :=
  forall history : list op,
    increasing (assignedIDs (fst (run history emptyStore))) = true.

(** Every record of a well-formed stream is decoded with zero values for
    the fields that do not parse. *)
Definition zeroValueLaw : Prop :=
  forall (w : World) (records : list (list bytes)),
    ReadAll (fileContent w) = CsvOk records ->
    Forall (fun r => length r = 4%nat) records ->
    fst (loadTasks w) = Ok (map decodeOrZero (tl records)).

(** ** Sample values *)

Definition sampleTime : Time := mkTime 2026 1 1 0 0 0 0 0.

(** The same second, one nanosecond later. *)
Definition sampleTimeNs : Time := mkTime 2026 1 1 0 0 0 1 0.

Definition taskA : Task := mkTask 1 (str "a") sampleTime false.
Definition taskB : Task := mkTask 2 (str "b") sampleTime false.
Definition taskA' : Task := mkTask 1 (str "again") sampleTime false.
Definition taskNs : Task := mkTask 1 (str "a") sampleTimeNs false.

Definition taskComma : Task :=
  mkTask 7 (str "milk, eggs") sampleTime true.

(** A file with a record whose ID field is not an integer. *)
Definition overflowingID : bytes :=
  serialize []
    ++ str "99999999999999999999x,a,2026-01-01T00:00:00Z,false" ++ [LF].

(** A file whose first task record has three fields that do not parse. *)
Definition badFields : bytes :=
  serialize []
    ++ str "x,a,yesterday,maybe" ++ [LF]
    ++ str "2,b,2026-01-01T00:00:00Z,false" ++ [LF].

(** ** Arguments of complete and delete *)

(** The integer a decimal numeral with an optional sign denotes, when the
    argument is such a numeral and the integer is a Go int. *)
Definition decimalValue (s : bytes) : option Z :=
  match s with
  | [] => None
  | c :: s' =>
      let neg := byte_eqb c "-"%char in
      let ds := if neg || byte_eqb c "+"%char then s' else s in
      match ds with
      | [] => None
      | _ :: _ =>
          if forallb isDigit ds then
            let v := if neg then - decVal ds 0 else decVal ds 0 in
            if (minInt <=? v) && (v <=? maxInt) then Some v else None
          else None
      end
  end.

(** ** Histories without delete *)

Inductive edit : Type :=
| EditAdd (description : bytes) (now : Time)
| EditComplete (arg : bytes).

Definition editOp (e : edit) : op :=
  match e with
  | EditAdd description now => OpAdd description now
  | EditComplete arg => OpComplete arg
  end.

(** What add and complete do to the list of stored tasks, by the in-memory
    code of the two commands; the timestamp of a new task is cut to the
    second, as the stored form has it. *)
Definition editList (e : edit) (l : list Task)
    : outcome output * list Task :=
  match e with
  | EditAdd description now =>
      (Ok (Added (getNextID l) description),
       l ++ [mkTask (getNextID l) description (truncSecond now) false])
  | EditComplete arg =>
      match Atoi arg with
      | (_, Some _) => (Err (ErrInvalidID arg), l)
      | (id, None) =>
          let (l', found) := complete_loop id l in
          if found then (Ok (Completed id), l')
          else (Err (ErrNotFound id), l)
      end
  end.

Fixpoint editsList (history : list edit) (l : list Task)
    : list (outcome output) * list Task :=
  match history with
  | [] => ([], l)
  | e :: rest =>
      let (r, l1) := editList e l in
      let (rs, l2) := editsList rest l1 in
      (r :: rs, l2)
  end.

(** An add with a single-line description at a clock reading the layout can
    carry; any complete. *)
Definition editable (e : edit) : Prop :=
  match e with
  | EditAdd description now => noLF description /\ clockTime now
  | EditComplete _ => True
  end.

Fixpoint countAdds (history : list edit) : nat :=
  match history with
  | [] => 0%nat
  | EditAdd _ _ :: rest => S (countAdds rest)
  | EditComplete _ :: rest => countAdds rest
  end.

(** The file is what saveTasks writes for [l], followed by blank lines, or
    the store is fresh and [l] is empty. *)
Definition settled (w : World) (l : list Task) : Prop :=
  Forall storable l
  /\ ((exists n, disk w = Some (serialize l ++ repeat LF n))
      \/ (l = [] /\ (disk w = None \/ disk w = Some []))).

Definition distinctIDs (tasks : list Task) : Prop := NoDup (map ID tasks).

(** ** Proof support *)

(** Checks run over all two-digit and four-digit fields of a timestamp. *)
Definition twoDigits (x : Z) : bool :=
  match appendInt x 2 with
  | [a; b] => isDigit a && isDigit b && (digitVal a * 10 + digitVal b =? x)
  | _ => false
  end.

Definition fourDigits (x : Z) : bool :=
  match appendInt x 4 with
  | [a; b; c; d] =>
      forallb isDigit [a; b; c; d] && (decVal [a; b; c; d] 0 =? x)
  | _ => false
  end.

Fixpoint quoteCount (field : bytes) : nat :=
  match field with
  | [] => 0%nat
  | c :: f => if byte_eqb c QUOTE then S (quoteCount f) else quoteCount f
  end.

(** The number of calls of [parseField] and [parseQuoted] a written field
    and a written record take. *)
Definition fieldCost (field : bytes) : nat :=
  if fieldNeedsQuotes field then (2 + quoteCount field)%nat else 1%nat.

Fixpoint recordCost (record : list bytes) : nat :=
  match record with
  | [] => 0%nat
  | field :: rest => (fieldCost field + recordCost rest)%nat
  end.

(** A reader result that is not the bound and leaves no more input than it
    was given. *)
Definition readBounded (rest : bytes) (r : readResult) : Prop :=
  match r with
  | RecFuel => False
  | RecOk _ rest' => (length rest' <= length rest)%nat
  | _ => True
  end.

(** Closed side conditions on sample values. *)
Ltac by_eval :=
  first [ lia
        | vm_compute; reflexivity
        | vm_compute; let H := fresh in intros H; discriminate H ].

Ltac no_line_feed :=
  unfold noLF; simpl;
  let H := fresh in
  intros H; repeat (destruct H as [H | H]; [discriminate H |]); exact H.

(** * Properties *)

(** ** Decimal digits *)

Lemma digitChar_spec (d : Z) :
  0 <= d <= 9 -> isDigit (digitChar d) = true /\ digitVal (digitChar d) = d.
Proof.
  intros H.
  assert (E : d = 0 \/ d = 1 \/ d = 2 \/ d = 3 \/ d = 4 \/ d = 5 \/ d = 6
              \/ d = 7 \/ d = 8 \/ d = 9) by lia.
  repeat (destruct E as [E | E]; [subst d; split; reflexivity |]).
  subst d; split; reflexivity.
Qed.

Lemma isDigit_range (c : ascii) :
  isDigit c = true -> 0 <= digitVal c <= 9.
Proof.
  unfold isDigit, digitVal. intros H.
  apply andb_prop in H. destruct H as [H1 H2].
  apply Nat.leb_le in H1. apply Nat.leb_le in H2. lia.
Qed.

Lemma decVal_app (a b : bytes) (n : Z) :
  decVal (a ++ b) n = decVal b (decVal a n).
Proof.
  revert n. induction a as [| c a IH]; intros n; simpl; [reflexivity |].
  apply IH.
Qed.

Lemma decVal_ge (s : bytes) :
  Forall (fun c => isDigit c = true) s ->
  forall n, 0 <= n -> n <= decVal s n.
Proof.
  induction 1 as [| c s Hc Hs IH]; intros n Hn; simpl; [lia |].
  apply isDigit_range in Hc.
  specialize (IH (n * 10 + digitVal c)). lia.
Qed.

Lemma formatBits_loop_spec (fuel : nat) :
  forall u acc,
    0 <= u < 10 ^ Z.of_nat (S fuel) ->
    exists ds,
      formatBits_loop (S fuel) u acc = ds ++ acc /\
      Forall (fun c => isDigit c = true) ds /\
      ds <> [] /\
      decVal ds 0 = u /\
      (length ds <= S fuel)%nat.
Proof.
  induction fuel as [| f IH]; intros u acc Hu;
    cbn [formatBits_loop]; destruct (u <? 10) eqn:E.
  1, 3: apply Z.ltb_lt in E;
    destruct (digitChar_spec u ltac:(lia)) as [D1 D2];
    exists [digitChar u]; repeat split; simpl; auto; try lia; discriminate.
  - apply Z.ltb_ge in E. change (10 ^ Z.of_nat 1) with 10 in Hu. lia.
  - apply Z.ltb_ge in E.
    assert (Hq : 0 <= u / 10 < 10 ^ Z.of_nat (S f)).
    { rewrite (Nat2Z.inj_succ (S f)), Z.pow_succ_r in Hu by lia.
      split; [apply Z.div_pos; lia |].
      apply Z.div_lt_upper_bound; lia. }
    destruct (IH (u / 10) (digitChar (u mod 10) :: acc) Hq)
      as (ds & E1 & E2 & E3 & E4 & E5).
    assert (Hm : 0 <= u mod 10 <= 9)
      by (pose proof (Z.mod_pos_bound u 10); lia).
    destruct (digitChar_spec _ Hm) as [D1 D2].
    exists (ds ++ [digitChar (u mod 10)]). repeat split.
    + cbn [formatBits_loop] in E1. rewrite E1, <- app_assoc. reflexivity.
    + apply Forall_app. split; auto.
    + destruct ds; discriminate.
    + rewrite decVal_app, E4. simpl. rewrite D2.
      pose proof (Z.div_mod u 10). lia.
    + rewrite length_app. simpl. lia.
Qed.

Lemma formatUint_spec (u : Z) :
  0 <= u <= maxUint64 ->
  exists c ds,
    formatUint u = c :: ds /\
    Forall (fun c => isDigit c = true) (c :: ds) /\
    decVal (c :: ds) 0 = u.
Proof.
  intros Hu. unfold formatUint.
  destruct (formatBits_loop_spec 19 u []) as (ds & E1 & E2 & E3 & E4 & _).
  { unfold maxUint64 in Hu. split; [lia |].
    change (10 ^ Z.of_nat 20) with 100000000000000000000. lia. }
  rewrite app_nil_r in E1. destruct ds as [| c ds]; [congruence |].
  exists c, ds. auto.
Qed.

Lemma atoi_fast_loop_digits (s : bytes) :
  Forall (fun c => isDigit c = true) s ->
  forall n, atoi_fast_loop s n = Some (decVal s n).
Proof.
  induction 1 as [| c s Hc Hs IH]; intros n; simpl; [reflexivity |].
  rewrite Hc. apply IH.
Qed.

Lemma parseUint_loop_digits (s : bytes) :
  Forall (fun c => isDigit c = true) s ->
  forall n, 0 <= n -> decVal s n <= maxUint64 ->
            parseUint_loop s n = (decVal s n, None).
Proof.
  induction 1 as [| c s Hc Hs IH]; intros n Hn Hle; simpl; [reflexivity |].
  rewrite Hc. simpl in Hle.
  pose proof (isDigit_range c Hc) as Hd.
  pose proof (decVal_ge s Hs (n * 10 + digitVal c) ltac:(lia)) as Hge.
  assert (E1 : (n >=? cutoff10) = false).
  { rewrite Z.geb_leb. apply Z.leb_gt. unfold cutoff10, maxUint64 in *.
    change (18446744073709551615 / 10 + 1) with 1844674407370955162. lia. }
  rewrite E1.
  assert (E2 : (n * 10 + digitVal c >? maxUint64) = false).
  { rewrite Z.gtb_ltb. apply Z.ltb_ge. lia. }
  rewrite E2. apply IH; lia.
Qed.

Lemma wrap_id (z : Z) : isInt z -> wrap z = z.
Proof.
  unfold isInt, wrap, minInt, maxInt. intros H.
  rewrite Z.mod_small; [lia |].
  change (2 ^ 63) with 9223372036854775808.
  change (2 ^ 64) with 18446744073709551616. lia.
Qed.

Lemma isDigit_not_sign (c : ascii) :
  isDigit c = true ->
  byte_eqb c "-"%char = false /\ byte_eqb c "+"%char = false.
Proof.
  intros H. unfold byte_eqb. split.
  - destruct (Ascii.eqb_spec c "-"%char) as [-> |]; [discriminate | auto].
  - destruct (Ascii.eqb_spec c "+"%char) as [-> |]; [discriminate | auto].
Qed.

(** Atoi reads back what Itoa wrote, over the whole range of a Go int. *)
Lemma Atoi_Itoa (i : Z) : isInt i -> Atoi (Itoa i) = (i, None).
Proof.
  intros Hi. unfold Itoa. destruct (i <? 0) eqn:Eneg.
  - apply Z.ltb_lt in Eneg.
    destruct (formatUint_spec (- i)) as (c & ds & E & Hd & Hv).
    { unfold isInt, minInt, maxInt, maxUint64 in *. lia. }
    rewrite E. unfold Atoi.
    destruct ((0 <? length ("-"%char :: c :: ds))%nat
              && (length ("-"%char :: c :: ds) <? 19)%nat) eqn:Elen.
    + change (byte_eqb "-"%char "-"%char) with true. cbn [orb andb].
      change ((length (c :: ds) <? 1)%nat) with false. cbn iota.
      rewrite (atoi_fast_loop_digits _ Hd), Hv.
      f_equal. lia.
    + unfold ParseInt.
      change (byte_eqb "-"%char "-"%char) with true.
      change (byte_eqb "-"%char "+"%char) with false. cbn [orb].
      unfold ParseUint.
      rewrite (parseUint_loop_digits _ Hd) by
        (unfold isInt, minInt, maxInt, maxUint64 in *; lia).
      rewrite Hv. cbn [negb andb].
      assert (E2 : (- i >? 2 ^ 63) = false).
      { rewrite Z.gtb_ltb. apply Z.ltb_ge.
        unfold isInt, minInt in Hi. change (2 ^ 63) with 9223372036854775808.
        lia. }
      rewrite E2. f_equal.
      destruct (Z.eq_dec i minInt) as [-> | Hne].
      * reflexivity.
      * rewrite (wrap_id (- i)) by
          (unfold isInt, minInt, maxInt in *; lia).
        rewrite wrap_id by (unfold isInt, minInt, maxInt in *; lia). lia.
  - apply Z.ltb_ge in Eneg.
    destruct (formatUint_spec i) as (c & ds & E & Hd & Hv).
    { unfold isInt, minInt, maxInt, maxUint64 in *. lia. }
    rewrite E. unfold Atoi.
    pose proof (Forall_inv Hd) as Hc. cbn beta in Hc.
    destruct (isDigit_not_sign c Hc) as [N1 N2].
    destruct ((0 <? length (c :: ds))%nat && (length (c :: ds) <? 19)%nat).
    + rewrite N1, N2. cbn [orb andb].
      rewrite (atoi_fast_loop_digits _ Hd), Hv. reflexivity.
    + unfold ParseInt. rewrite N1, N2. cbn [orb].
      unfold ParseUint.
      rewrite (parseUint_loop_digits _ Hd) by
        (unfold isInt, minInt, maxInt, maxUint64 in *; lia).
      rewrite Hv. cbn [negb andb].
      assert (E2 : (i >=? 2 ^ 63) = false).
      { rewrite Z.geb_leb. apply Z.leb_gt.
        unfold isInt, maxInt in Hi. change (2 ^ 63) with 9223372036854775808.
        lia. }
      rewrite E2. rewrite wrap_id by auto. reflexivity.
Qed.

(** ** time: Parse reads back what Format wrote *)

Lemma bytes_eqb_eq (a b : bytes) : bytes_eqb a b = true -> a = b.
Proof.
  revert b. induction a as [| x a IH]; intros [| y b] H; simpl in H;
    try discriminate; [reflexivity |].
  apply andb_prop in H. destruct H as [H1 H2].
  apply Ascii.eqb_eq in H1. f_equal; auto.
Qed.

Lemma bytes_eqb_refl (a : bytes) : bytes_eqb a a = true.
Proof.
  induction a as [| x a IH]; simpl; [reflexivity |].
  unfold byte_eqb. rewrite Ascii.eqb_refl. exact IH.
Qed.

Lemma check_below (P : Z -> bool) (n : Z) :
  forallb (fun k => P (Z.of_nat k)) (seq 0 (Z.to_nat n)) = true ->
  forall x, 0 <= x < n -> P x = true.
Proof.
  intros H x Hx. rewrite forallb_forall in H.
  specialize (H (Z.to_nat x)). rewrite Z2Nat.id in H by lia.
  apply H. apply in_seq. lia.
Qed.

Lemma appendInt_2 (x : Z) :
  0 <= x <= 99 ->
  exists a b, appendInt x 2 = [a; b] /\ isDigit a = true /\ isDigit b = true
              /\ digitVal a * 10 + digitVal b = x.
Proof.
  intros Hx.
  assert (H : twoDigits x = true).
  { apply (check_below twoDigits 100); [vm_compute; reflexivity | lia]. }
  unfold twoDigits in H.
  destruct (appendInt x 2) as [| a [| b [| ? ?]]]; try discriminate.
  apply andb_prop in H. destruct H as [H H3].
  apply andb_prop in H. destruct H as [H1 H2].
  apply Z.eqb_eq in H3. exists a, b. repeat split; assumption.
Qed.

Lemma appendInt_4 (x : Z) :
  0 <= x <= 9999 ->
  exists a b c d, appendInt x 4 = [a; b; c; d]
                  /\ forallb isDigit [a; b; c; d] = true
                  /\ decVal [a; b; c; d] 0 = x.
Proof.
  intros Hx.
  assert (H : fourDigits x = true).
  { apply (check_below fourDigits 10000); [vm_compute; reflexivity | lia]. }
  unfold fourDigits in H.
  destruct (appendInt x 4) as [| a [| b [| c [| d [| ? ?]]]]];
    try discriminate.
  apply andb_prop in H. destruct H as [H1 H2].
  apply Z.eqb_eq in H2. exists a, b, c, d. auto.
Qed.

Lemma getnum_2 (a b : ascii) (rest : bytes) (fixed : bool) :
  isDigit a = true -> isDigit b = true ->
  getnum (a :: b :: rest) fixed = Some (digitVal a * 10 + digitVal b, rest).
Proof. intros Ha Hb. simpl. rewrite Ha, Hb. reflexivity. Qed.

Lemma parseFraction_formatZone (off : Z) :
  parseFraction (formatZone off) = (0, formatZone off).
Proof.
  unfold formatZone. destruct (off =? 0); [reflexivity |].
  destruct (Z.quot off 60 <? 0); reflexivity.
Qed.

Lemma parseZone_formatZone (off : Z) :
  Z.rem off 60 = 0 -> -89940 <= off <= 89940 ->
  parseZone (formatZone off) = Some (off, []).
Proof.
  intros Hrem Hrange. unfold formatZone.
  destruct (off =? 0) eqn:E0.
  - apply Z.eqb_eq in E0. subst off. reflexivity.
  - apply Z.eqb_neq in E0.
    pose proof (Z.quot_rem' off 60) as Hq. rewrite Hrem in Hq.
    set (zone := Z.quot off 60) in *.
    remember (if zone <? 0 then - zone else zone) as az eqn:Eaz.
    assert (Haz : 0 <= az <= 1499 /\ (az = zone \/ az = - zone)).
    { rewrite Eaz. destruct (zone <? 0) eqn:E; [apply Z.ltb_lt in E |
        apply Z.ltb_ge in E]; lia. }
    destruct Haz as [Haz Hsign].
    assert (Hhr : 0 <= az / 60 <= 24).
    { split; [apply Z.div_pos; lia |].
      assert (az / 60 < 25) by (apply Z.div_lt_upper_bound; lia). lia. }
    pose proof (Z.mod_pos_bound az 60 ltac:(lia)) as Hmm.
    pose proof (Z.div_mod az 60 ltac:(lia)) as Hdm.
    destruct (appendInt_2 (az / 60) ltac:(lia)) as (a & b & Eh & Da & Db & Vh).
    destruct (appendInt_2 (az mod 60) ltac:(lia))
      as (c & d & Em & Dc & Dd & Vm).
    rewrite Eh, Em. cbn [app].
    assert (Hgo : forall sign,
      (sign = "+"%char /\ az = zone) \/ (sign = "-"%char /\ az = - zone) ->
      parseZone [sign; a; b; ":"%char; c; d] = Some (off, [])).
    { intros sign Hs.
      assert (Ez : parseZone [sign; a; b; ":"%char; c; d] =
                   match getnum [a; b] true, getnum [c; d] true with
                   | Some (hr, _), Some (mm, _) =>
                       if (hr >? 24) || (mm >? 60) then None
                       else
                         let zoneOffset := (hr * 60 + mm) * 60 in
                         if byte_eqb sign "+"%char then Some (zoneOffset, [])
                         else if byte_eqb sign "-"%char
                              then Some (- zoneOffset, [])
                              else None
                   | _, _ => None
                   end).
      { destruct Hs as [[-> _] | [-> _]]; reflexivity. }
      rewrite Ez, !getnum_2 by assumption. rewrite Vh, Vm.
      assert (G1 : (az / 60 >? 24) = false)
        by (rewrite Z.gtb_ltb; apply Z.ltb_ge; lia).
      assert (G2 : (az mod 60 >? 60) = false)
        by (rewrite Z.gtb_ltb; apply Z.ltb_ge; lia).
      rewrite G1, G2. cbn [orb].
      destruct Hs as [[-> Hz] | [-> Hz]]; cbv zeta.
      - change (byte_eqb "+"%char "+"%char) with true. cbn iota.
        do 2 f_equal. lia.
      - change (byte_eqb "-"%char "+"%char) with false.
        change (byte_eqb "-"%char "-"%char) with true. cbn iota.
        do 2 f_equal. lia. }
    destruct (zone <? 0) eqn:E; apply Hgo; rewrite Eaz; auto.
Qed.

Lemma parse_format (t : Time) :
  clockTime t -> parseRFC3339 (formatRFC3339 t) = Some (truncSecond t).
Proof.
  intros (Hy & Hmo & Hd & Hh & Hmi & Hs & Hn & Hrem & Hoff).
  assert (Hd31 : day t <= 31).
  { unfold daysIn in Hd.
    repeat match type of Hd with
           | context [if ?b then _ else _] => destruct b
           end; lia. }
  unfold formatRFC3339.
  destruct (appendInt_4 (year t) Hy) as (y1 & y2 & y3 & y4 & Ey & Dy & Vy).
  destruct (appendInt_2 (month t) ltac:(lia)) as (m1 & m2 & Em & ? & ? & Vm).
  destruct (appendInt_2 (day t) ltac:(lia)) as (d1 & d2 & Ed & ? & ? & Vd).
  destruct (appendInt_2 (hour t) ltac:(lia)) as (h1 & h2 & Eh & ? & ? & Vh).
  destruct (appendInt_2 (minute t) ltac:(lia))
    as (i1 & i2 & Ei & ? & ? & Vi).
  destruct (appendInt_2 (second t) ltac:(lia))
    as (s1 & s2 & Es & ? & ? & Vs).
  rewrite Ey, Em, Ed, Eh, Ei, Es. cbn [app].
  unfold parseRFC3339. rewrite Dy, Vy. cbn [guard bindO skip].
  change (byte_eqb "-"%char "-"%char) with true. cbn [bindO].
  rewrite getnum_2 by assumption. cbn [bindO]. rewrite Vm.
  replace ((1 <=? month t) && (month t <=? 12)) with true
    by (symmetry; apply andb_true_intro; split; apply Z.leb_le; lia).
  cbn [guard bindO skip].
  change (byte_eqb "-"%char "-"%char) with true. cbn [bindO].
  rewrite getnum_2 by assumption. cbn [bindO skip]. rewrite Vd.
  change (byte_eqb "T"%char "T"%char) with true. cbn [bindO].
  rewrite getnum_2 by assumption. cbn [bindO]. rewrite Vh.
  replace (hour t <? 24) with true by (symmetry; apply Z.ltb_lt; lia).
  cbn [guard bindO skip].
  change (byte_eqb ":"%char ":"%char) with true. cbn [bindO].
  rewrite getnum_2 by assumption. cbn [bindO]. rewrite Vi.
  replace (minute t <? 60) with true by (symmetry; apply Z.ltb_lt; lia).
  cbn [guard bindO skip].
  change (byte_eqb ":"%char ":"%char) with true. cbn [bindO].
  rewrite getnum_2 by assumption. cbn [bindO]. rewrite Vs.
  replace (second t <? 60) with true by (symmetry; apply Z.ltb_lt; lia).
  cbn [guard bindO].
  rewrite parseFraction_formatZone.
  rewrite parseZone_formatZone by assumption. cbn [bindO guard].
  replace ((1 <=? day t) && (day t <=? daysIn (month t) (year t))) with true
    by (symmetry; apply andb_true_intro; split; apply Z.leb_le; lia).
  cbn [guard bindO]. reflexivity.
Qed.

(** ** encoding/csv: the Reader reads back what the Writer wrote *)

Lemma byte_eqb_eq (a b : ascii) : byte_eqb a b = true <-> a = b.
Proof. apply Ascii.eqb_eq. Qed.

Lemma byte_eqb_neq (a b : ascii) : byte_eqb a b = false <-> a <> b.
Proof. apply Ascii.eqb_neq. Qed.

Lemma byte_eqb_refl (a : ascii) : byte_eqb a a = true.
Proof. apply Ascii.eqb_refl. Qed.

Lemma IndexByte_notin (b : bytes) (c : ascii) :
  ~ In c b -> IndexByte b c = None.
Proof.
  induction b as [| x b IH]; intros H; simpl; [reflexivity |].
  destruct (byte_eqb x c) eqn:E.
  - apply byte_eqb_eq in E. subst. exfalso. apply H. left. reflexivity.
  - rewrite IH; [reflexivity |]. intros Hin. apply H. right. exact Hin.
Qed.

Lemma IndexByte_app (pre post : bytes) (c : ascii) :
  ~ In c pre -> IndexByte (pre ++ c :: post) c = Some (length pre).
Proof.
  induction pre as [| x pre IH]; intros H; simpl.
  - rewrite byte_eqb_refl. reflexivity.
  - destruct (byte_eqb x c) eqn:E.
    + apply byte_eqb_eq in E. subst. exfalso. apply H. left. reflexivity.
    + rewrite IH; [reflexivity |]. intros Hin. apply H. right. exact Hin.
Qed.

Lemma firstn_length_app (pre post : bytes) :
  firstn (length pre) (pre ++ post) = pre.
Proof. induction pre; simpl; [destruct post |]; congruence. Qed.

Lemma skipn_S_length_app (pre post : bytes) (c : ascii) :
  skipn (S (length pre)) (pre ++ c :: post) = post.
Proof. induction pre; simpl; auto. Qed.

Lemma lengthNL_LF (b : bytes) : lengthNL (b ++ [LF]) = 1%nat.
Proof. unfold lengthNL. rewrite rev_app_distr. reflexivity. Qed.

Lemma hasQuote_false (b : bytes) : ~ In QUOTE b -> hasQuote b = false.
Proof.
  intros H. unfold hasQuote.
  destruct (existsb (byte_eqb QUOTE) b) eqn:E; [| reflexivity].
  apply existsb_exists in E. destruct E as (x & Hx & Ex).
  apply byte_eqb_eq in Ex. subst. contradiction.
Qed.

Lemma noSpecial_notin (field : bytes) :
  existsb isSpecial field = false ->
  ~ In LF field /\ ~ In CR field /\ ~ In QUOTE field /\ ~ In COMMA field.
Proof.
  intros H.
  assert (G : forall c, isSpecial c = true -> ~ In c field).
  { intros c Hc Hin.
    assert (existsb isSpecial field = true)
      by (apply existsb_exists; eauto).
    congruence. }
  repeat split; apply G; reflexivity.
Qed.

Lemma fieldNeedsQuotes_false (field : bytes) :
  fieldNeedsQuotes field = false -> existsb isSpecial field = false.
Proof.
  destruct field as [| c f]; [reflexivity |].
  unfold fieldNeedsQuotes. intros H.
  apply orb_false_elim in H. destruct H as [H _].
  apply orb_false_elim in H. destruct H as [_ H]. exact H.
Qed.

Lemma parseField_plain_comma (f : nat) (field more rest : bytes)
    (acc : list bytes) :
  existsb isSpecial field = false ->
  parseField (S f) (field ++ COMMA :: more) rest acc
  = parseField f more rest (acc ++ [field]).
Proof.
  intros H. destruct (noSpecial_notin field H) as (_ & _ & HQ & HC).
  assert (E : parseField (S f) (field ++ COMMA :: more) rest acc =
    match IndexByte (field ++ COMMA :: more) COMMA with
    | Some i =>
        let fld := firstn i (field ++ COMMA :: more) in
        if hasQuote fld then RecErr ErrBareQuote
        else parseField f (skipn (S i) (field ++ COMMA :: more)) rest
               (acc ++ [fld])
    | None =>
        let fld := firstn (length (field ++ COMMA :: more)
                           - lengthNL (field ++ COMMA :: more))
                     (field ++ COMMA :: more) in
        if hasQuote fld then RecErr ErrBareQuote
        else RecOk (acc ++ [fld]) rest
    end).
  { destruct field as [| c field']; [reflexivity |].
    cbn [parseField app].
    assert (Ec : byte_eqb c QUOTE = false).
    { apply byte_eqb_neq. intros ->. apply HQ. left. reflexivity. }
    rewrite Ec. reflexivity. }
  rewrite E, IndexByte_app by assumption. cbv zeta.
  rewrite firstn_length_app, skipn_S_length_app, hasQuote_false by assumption.
  reflexivity.
Qed.

Lemma parseField_plain_last (f : nat) (field rest : bytes)
    (acc : list bytes) :
  existsb isSpecial field = false ->
  parseField (S f) (field ++ [LF]) rest acc = RecOk (acc ++ [field]) rest.
Proof.
  intros H. destruct (noSpecial_notin field H) as (_ & _ & HQ & HC).
  assert (E : parseField (S f) (field ++ [LF]) rest acc =
    match IndexByte (field ++ [LF]) COMMA with
    | Some i =>
        let fld := firstn i (field ++ [LF]) in
        if hasQuote fld then RecErr ErrBareQuote
        else parseField f (skipn (S i) (field ++ [LF])) rest (acc ++ [fld])
    | None =>
        let fld := firstn (length (field ++ [LF]) - lengthNL (field ++ [LF]))
                     (field ++ [LF]) in
        if hasQuote fld then RecErr ErrBareQuote
        else RecOk (acc ++ [fld]) rest
    end).
  { destruct field as [| c field']; [reflexivity |].
    cbn [parseField app].
    assert (Ec : byte_eqb c QUOTE = false).
    { apply byte_eqb_neq. intros ->. apply HQ. left. reflexivity. }
    rewrite Ec. reflexivity. }
  rewrite E, IndexByte_notin.
  2: { intros Hin. apply in_app_or in Hin. destruct Hin as [Hin | Hin];
       [contradiction |]. destruct Hin as [Hin | []]. discriminate Hin. }
  cbv zeta. rewrite lengthNL_LF, length_app. cbn [length].
  replace (length field + 1 - 1)%nat with (length field) by lia.
  rewrite firstn_length_app, hasQuote_false by assumption.
  reflexivity.
Qed.

Lemma parseQuoted_eq (f : nat) (line rest buf : bytes) (acc : list bytes) :
  parseQuoted (S f) line rest buf acc =
  match IndexByte line QUOTE with
  | Some i =>
      let buf' := buf ++ firstn i line in
      let line' := skipn (S i) line in
      match line' with
      | c :: line'' =>
          if byte_eqb c QUOTE
          then parseQuoted f line'' rest (buf' ++ [QUOTE]) acc
          else if byte_eqb c COMMA
          then parseField f line'' rest (acc ++ [buf'])
          else if (lengthNL line' =? length line')%nat
          then RecOk (acc ++ [buf']) rest
          else RecErr ErrQuote
      | [] => RecOk (acc ++ [buf']) rest
      end
  | None =>
      match line with
      | [] => RecErr ErrQuote
      | _ =>
          match readLine rest with
          | Some (l, r) => parseQuoted f l r (buf ++ line) acc
          | None => parseQuoted f [] [] (buf ++ line) acc
          end
      end
  end.
Proof. reflexivity. Qed.

Lemma parseField_quoted_eq (f : nat) (line rest : bytes) (acc : list bytes) :
  parseField (S f) (QUOTE :: line) rest acc = parseQuoted f line rest [] acc.
Proof. reflexivity. Qed.

(** A written quoted field: the scan jumps from quote to quote; a doubled
    quote costs one call, the closing quote ends the field. *)
Lemma parseQuoted_written (field : bytes) :
  forall (pre : bytes) (k : nat) (buf : bytes) (acc : list bytes)
         (tail rest : bytes),
    ~ In QUOTE pre ->
    (forall t, tail <> QUOTE :: t) ->
    parseQuoted (S (quoteCount field + k))
      (pre ++ escapeQuoted field ++ QUOTE :: tail) rest buf acc =
    match tail with
    | c :: more =>
        if byte_eqb c COMMA
        then parseField k more rest (acc ++ [buf ++ pre ++ field])
        else if (lengthNL tail =? length tail)%nat
        then RecOk (acc ++ [buf ++ pre ++ field]) rest
        else RecErr ErrQuote
    | [] => RecOk (acc ++ [buf ++ pre ++ field]) rest
    end.
Proof.
  induction field as [| c f IH]; intros pre k buf acc tail rest Hpre Htail.
  - cbn [escapeQuoted quoteCount app Nat.add].
    rewrite parseQuoted_eq, IndexByte_app by assumption. cbv zeta.
    rewrite firstn_length_app, skipn_S_length_app, app_nil_r.
    destruct tail as [| c more]; [reflexivity |].
    assert (Ec : byte_eqb c QUOTE = false).
    { apply byte_eqb_neq. intros ->. apply (Htail more). reflexivity. }
    rewrite Ec. reflexivity.
  - cbn [escapeQuoted quoteCount]. destruct (byte_eqb c QUOTE) eqn:Ec.
    + apply byte_eqb_eq in Ec. subst c.
      change (S (S (quoteCount f) + k)) with (S (S (quoteCount f + k))).
      cbn [app].
      rewrite parseQuoted_eq, IndexByte_app by assumption. cbv zeta.
      rewrite firstn_length_app, skipn_S_length_app.
      rewrite byte_eqb_refl.
      specialize (IH [] k (buf ++ pre ++ [QUOTE]) acc tail rest
                    ltac:(simpl; tauto) Htail).
      cbn [app] in IH.
      rewrite <- !app_assoc in IH. rewrite <- app_assoc.
      rewrite IH.
      replace (pre ++ QUOTE :: f) with (pre ++ [QUOTE] ++ f) by reflexivity.
      reflexivity.
    + cbn [app].
      replace (pre ++ c :: escapeQuoted f ++ QUOTE :: tail)
        with ((pre ++ [c]) ++ escapeQuoted f ++ QUOTE :: tail)
        by (rewrite <- app_assoc; reflexivity).
      rewrite IH; [| | assumption].
      * replace ((pre ++ [c]) ++ f) with (pre ++ c :: f)
          by (rewrite <- app_assoc; reflexivity).
        reflexivity.
      * intros Hin. apply in_app_or in Hin. destruct Hin as [Hin | Hin];
          [contradiction |]. destruct Hin as [Hin | []]. subst c.
        rewrite byte_eqb_refl in Ec. discriminate.
Qed.

Lemma parseField_written (fs : list bytes) :
  forall (f : bytes) (k : nat) (acc : list bytes) (rest : bytes),
    parseField (recordCost (f :: fs) + k) (writeFields (f :: fs) ++ [LF])
      rest acc
    = RecOk (acc ++ f :: fs) rest.
Proof.
  induction fs as [| f2 fs IH]; intros f k acc rest.
  - cbn [writeFields recordCost]. unfold writeField, fieldCost.
    destruct (fieldNeedsQuotes f) eqn:E.
    + replace (2 + quoteCount f + 0 + k)%nat
        with (S (S (quoteCount f + k))) by lia.
      replace ((QUOTE :: escapeQuoted f ++ [QUOTE]) ++ [LF])
        with (QUOTE :: [] ++ escapeQuoted f ++ QUOTE :: [LF])
        by (cbn [app]; rewrite <- app_assoc; reflexivity).
      rewrite parseField_quoted_eq.
      rewrite parseQuoted_written; [| simpl; tauto | discriminate].
      reflexivity.
    + replace (1 + 0 + k)%nat with (S k) by lia.
      apply parseField_plain_last. apply fieldNeedsQuotes_false. exact E.
  - change (writeFields (f :: f2 :: fs))
      with (writeField f ++ COMMA :: writeFields (f2 :: fs)).
    change (recordCost (f :: f2 :: fs))
      with (fieldCost f + recordCost (f2 :: fs))%nat.
    rewrite <- app_assoc. cbn [app].
    unfold writeField at 1. unfold fieldCost at 1.
    destruct (fieldNeedsQuotes f) eqn:E.
    + replace (2 + quoteCount f + recordCost (f2 :: fs) + k)%nat
        with (S (S (quoteCount f + (recordCost (f2 :: fs) + k)))) by lia.
      replace ((QUOTE :: escapeQuoted f ++ [QUOTE])
                 ++ COMMA :: writeFields (f2 :: fs) ++ [LF])
        with (QUOTE :: [] ++ escapeQuoted f
                ++ QUOTE :: COMMA :: writeFields (f2 :: fs) ++ [LF])
        by (cbn [app]; rewrite <- app_assoc; reflexivity).
      rewrite parseField_quoted_eq.
      rewrite parseQuoted_written; [| simpl; tauto | discriminate].
      rewrite byte_eqb_refl. cbn [app].
      rewrite IH. rewrite <- app_assoc. reflexivity.
    + replace (1 + recordCost (f2 :: fs) + k)%nat
        with (S (recordCost (f2 :: fs) + k)) by lia.
      rewrite parseField_plain_comma
        by (apply fieldNeedsQuotes_false; exact E).
      rewrite IH. rewrite <- app_assoc. reflexivity.
Qed.

Lemma escapeQuoted_length (f : bytes) :
  length (escapeQuoted f) = (length f + quoteCount f)%nat.
Proof.
  induction f as [| c f IH]; simpl; [reflexivity |].
  destruct (byte_eqb c QUOTE); simpl; lia.
Qed.

Lemma escapeQuoted_In (f : bytes) (c : ascii) :
  In c (escapeQuoted f) -> c = QUOTE \/ In c f.
Proof.
  induction f as [| x f IH]; simpl; [tauto |].
  destruct (byte_eqb x QUOTE) eqn:E; simpl; intros H.
  - apply byte_eqb_eq in E. subst x. intuition auto.
  - intuition auto.
Qed.

Lemma recordCost_le (r : list bytes) :
  (recordCost r <= length (writeFields r) + 1)%nat.
Proof.
  assert (F : forall f, (fieldCost f <= length (writeField f) + 1)%nat).
  { intros f. unfold fieldCost, writeField.
    destruct (fieldNeedsQuotes f); [| lia].
    cbn [length]. rewrite length_app, escapeQuoted_length. simpl. lia. }
  induction r as [| f [| f2 r] IH].
  - simpl. lia.
  - cbn [recordCost writeFields]. specialize (F f). lia.
  - change (writeFields (f :: f2 :: r))
      with (writeField f ++ COMMA :: writeFields (f2 :: r)).
    change (recordCost (f :: f2 :: r))
      with (fieldCost f + recordCost (f2 :: r))%nat.
    rewrite length_app. cbn [length]. specialize (F f). lia.
Qed.

Lemma writeField_noLF (f : bytes) : noLF f -> noLF (writeField f).
Proof.
  unfold noLF, writeField. intros H.
  destruct (fieldNeedsQuotes f); [| exact H].
  intros [Hin | Hin]; [discriminate Hin |].
  apply in_app_or in Hin. destruct Hin as [Hin | [Hin | []]].
  - apply escapeQuoted_In in Hin. destruct Hin as [Hin | Hin];
      [discriminate Hin | contradiction].
  - discriminate Hin.
Qed.

Lemma writeFields_noLF (r : list bytes) :
  Forall noLF r -> noLF (writeFields r).
Proof.
  induction r as [| f [| f2 r] IH]; intros H.
  - intros [].
  - apply writeField_noLF. apply (Forall_inv H).
  - change (writeFields (f :: f2 :: r))
      with (writeField f ++ COMMA :: writeFields (f2 :: r)).
    intros Hin. apply in_app_or in Hin. destruct Hin as [Hin | [Hin | Hin]].
    + revert Hin. apply writeField_noLF. apply (Forall_inv H).
    + discriminate Hin.
    + revert Hin. apply IH. apply (Forall_inv_tail H).
Qed.

Lemma writeFields_after_comma (r : list bytes) :
  r <> [] ->
  forall pre b, pre ++ COMMA :: writeFields r <> b ++ [CR].
Proof.
  induction r as [| f [| f2 r] IH]; intros Hne pre b; [congruence | |].
  - cbn [writeFields]. unfold writeField.
    destruct (fieldNeedsQuotes f) eqn:E.
    + replace (pre ++ COMMA :: QUOTE :: escapeQuoted f ++ [QUOTE])
        with ((pre ++ COMMA :: QUOTE :: escapeQuoted f) ++ [QUOTE])
        by (rewrite <- app_assoc; reflexivity).
      intros H. apply app_inj_tail in H. destruct H as [_ H]. discriminate H.
    + apply fieldNeedsQuotes_false in E.
      destruct (noSpecial_notin f E) as (_ & HCR & _ & _).
      destruct f as [| c f0].
      * intros H. change (pre ++ [COMMA] = b ++ [CR]) in H.
        apply app_inj_tail in H. destruct H as [_ H]. discriminate H.
      * destruct (exists_last (l := c :: f0) ltac:(discriminate))
          as (f' & a & Ef).
        rewrite Ef in *.
        replace (pre ++ COMMA :: f' ++ [a])
          with ((pre ++ COMMA :: f') ++ [a])
          by (rewrite <- app_assoc; reflexivity).
        intros H. apply app_inj_tail in H. destruct H as [_ H]. subst a.
        apply HCR. apply in_or_app. right. left. reflexivity.
  - change (writeFields (f :: f2 :: r))
      with (writeField f ++ COMMA :: writeFields (f2 :: r)).
    replace (pre ++ COMMA :: writeField f ++ COMMA :: writeFields (f2 :: r))
      with ((pre ++ COMMA :: writeField f)
              ++ COMMA :: writeFields (f2 :: r))
      by (rewrite <- app_assoc; reflexivity).
    apply IH. discriminate.
Qed.

Lemma splitLine_written (body rest : bytes) :
  noLF body -> splitLine ((body ++ [LF]) ++ rest) = (body ++ [LF], rest).
Proof.
  unfold noLF. induction body as [| c body IH]; intros H.
  - reflexivity.
  - cbn [app splitLine].
    assert (Ec : byte_eqb c LF = false).
    { apply byte_eqb_neq. intros ->. apply H. left. reflexivity. }
    rewrite Ec, IH; [reflexivity |].
    intros Hin. apply H. right. exact Hin.
Qed.

Lemma readLine_written (body rest : bytes) :
  noLF body -> (forall b, body <> b ++ [CR]) ->
  readLine ((body ++ [LF]) ++ rest) = Some (body ++ [LF], rest).
Proof.
  intros HLF HCR.
  assert (E : readLine ((body ++ [LF]) ++ rest) =
    let (line, rest') := splitLine ((body ++ [LF]) ++ rest) in
    let line := if (lengthNL line =? 1)%nat then line
                else dropTrailingCR line in
    Some (normalizeCRLF line, rest')).
  { destruct body; reflexivity. }
  rewrite E, splitLine_written by assumption. cbv zeta.
  rewrite lengthNL_LF. cbn [Nat.eqb].
  unfold normalizeCRLF. rewrite rev_app_distr. cbn [rev app].
  destruct (rev body) as [| c2 r] eqn:Er; [reflexivity |].
  assert (Ec : byte_eqb c2 CR = false).
  { apply byte_eqb_neq. intros ->.
    apply (HCR (rev r)). rewrite <- (rev_involutive body), Er.
    reflexivity. }
  rewrite Ec, andb_false_r. reflexivity.
Qed.

Lemma readRecord_written (r : list bytes) (n : nat) (rest : bytes) :
  (2 <= length r)%nat -> Forall noLF r ->
  readRecord (S n) (csvWrite r ++ rest) = RecOk r rest.
Proof.
  intros Hlen HLF. unfold csvWrite.
  destruct r as [| f1 [| f2 r]]; cbn [length] in Hlen; try lia.
  assert (Hbody : forall b, writeFields (f1 :: f2 :: r) <> b ++ [CR]).
  { change (writeFields (f1 :: f2 :: r))
      with (writeField f1 ++ COMMA :: writeFields (f2 :: r)).
    apply writeFields_after_comma. discriminate. }
  cbn [readRecord].
  rewrite readLine_written by (auto using writeFields_noLF).
  rewrite lengthNL_LF.
  assert (Hpos : (1 <= length (writeFields (f1 :: f2 :: r)))%nat).
  { change (writeFields (f1 :: f2 :: r))
      with (writeField f1 ++ COMMA :: writeFields (f2 :: r)).
    rewrite length_app. cbn [length]. lia. }
  assert (El : (length (writeFields (f1 :: f2 :: r) ++ [LF]) =? 1)%nat
               = false).
  { apply Nat.eqb_neq. rewrite length_app. cbn [length]. lia. }
  rewrite El.
  pose proof (recordCost_le (f1 :: f2 :: r)) as Hcost.
  set (line := writeFields (f1 :: f2 :: r) ++ [LF]).
  assert (Hline : length line = (length (writeFields (f1 :: f2 :: r)) + 1)%nat)
    by (unfold line; rewrite length_app; reflexivity).
  replace (2 + length line + length rest)%nat
    with (recordCost (f1 :: f2 :: r)
          + (2 + length line + length rest - recordCost (f1 :: f2 :: r)))%nat
    by lia.
  unfold line. rewrite parseField_written. reflexivity.
Qed.

Lemma readAll_loop_written (records : list (list bytes)) :
  forall (n fuel : nat) (acc : list (list bytes)),
    (2 <= n)%nat ->
    Forall (plainRecord n) records ->
    (length records < fuel)%nat ->
    readAll_loop fuel (concat (map csvWrite records)) n acc
    = CsvOk (acc ++ records).
Proof.
  induction records as [| r rs IH]; intros n fuel acc Hn Hall Hfuel;
    (destruct fuel as [| fuel]; [cbn [length] in Hfuel; lia |]).
  - cbn [map concat readAll_loop readRecord readLine].
    rewrite app_nil_r. reflexivity.
  - cbn [map concat readAll_loop].
    destruct (Forall_inv Hall) as [Hlen HLF].
    rewrite readRecord_written by (auto; lia).
    assert (E1 : (0 <? n)%nat = true) by (apply Nat.ltb_lt; lia).
    assert (E2 : (length r =? n)%nat = true) by (apply Nat.eqb_eq; auto).
    rewrite E1, E2.
    rewrite IH; auto.
    + rewrite <- app_assoc. reflexivity.
    + apply (Forall_inv_tail Hall).
    + cbn [length] in Hfuel. lia.
Qed.

Lemma concat_csvWrite_length (records : list (list bytes)) :
  (length records <= length (concat (map csvWrite records)))%nat.
Proof.
  induction records as [| r rs IH]; simpl; [lia |].
  unfold csvWrite at 1. rewrite !length_app. cbn [length]. lia.
Qed.

(** ReadAll returns the records the writer was given, when every record has
    as many fields as the first, at least two, and no field holds a line
    feed. *)
Lemma ReadAll_written (r : list bytes) (rs : list (list bytes)) :
  (2 <= length r)%nat ->
  Forall (plainRecord (length r)) (r :: rs) ->
  ReadAll (concat (map csvWrite (r :: rs))) = CsvOk (r :: rs).
Proof.
  intros Hlen Hall. unfold ReadAll.
  cbn [map concat readAll_loop].
  destruct (Forall_inv Hall) as [_ HLF].
  rewrite readRecord_written by auto.
  cbn [Nat.ltb Nat.leb].
  rewrite readAll_loop_written; auto.
  - apply (Forall_inv_tail Hall).
  - rewrite length_app.
    pose proof (concat_csvWrite_length rs).
    unfold csvWrite at 1. rewrite length_app. cbn [length]. lia.
Qed.

(** ** getNextID *)

Lemma getNextID_loop_max (tasks : list Task) :
  forall m, getNextID_loop tasks m = fold_left Z.max (map ID tasks) m.
Proof.
  induction tasks as [| t tasks IH]; intros m; simpl; [reflexivity |].
  rewrite IH. f_equal.
  destruct (ID t >? m) eqn:E; rewrite Z.gtb_ltb in E;
    [apply Z.ltb_lt in E | apply Z.ltb_ge in E]; lia.
Qed.

Lemma fold_max_ge (l : list Z) :
  forall m, m <= fold_left Z.max l m
            /\ Forall (fun x => x <= fold_left Z.max l m) l.
Proof.
  induction l as [| x l IH]; intros m; simpl.
  - split; [lia | constructor].
  - destruct (IH (Z.max m x)) as [H1 H2]. split; [lia |].
    constructor; [lia | exact H2].
Qed.

Lemma fold_max_bound (l : list Z) (b : Z) :
  forall m, m <= b -> Forall (fun x => x <= b) l -> fold_left Z.max l m <= b.
Proof.
  induction l as [| x l IH]; intros m Hm H; simpl; [exact Hm |].
  apply IH; [pose proof (Forall_inv H); simpl in *; lia |].
  apply (Forall_inv_tail H).
Qed.

Lemma fold_max_seq (k : nat) :
  fold_left Z.max (map Z.of_nat (seq 1 k)) 0 = Z.of_nat k.
Proof.
  induction k as [| k IH]; [reflexivity |].
  rewrite seq_S, map_app, fold_left_app, IH. simpl. lia.
Qed.

Lemma getNextID_above (tasks : list Task) :
  Forall (fun t => ID t < maxInt) tasks ->
  getNextID tasks = getNextID_loop tasks 0 + 1 /\
  0 < getNextID tasks /\
  Forall (fun t => ID t < getNextID tasks) tasks.
Proof.
  intros H. unfold getNextID. rewrite getNextID_loop_max.
  destruct (fold_max_ge (map ID tasks) 0) as [H0 Hall].
  assert (Hb : fold_left Z.max (map ID tasks) 0 <= maxInt - 1).
  { apply fold_max_bound; [unfold maxInt; lia |].
    rewrite Forall_map. eapply Forall_impl; [| exact H].
    intros t Ht. simpl in Ht. lia. }
  rewrite wrap_id by (unfold isInt, minInt, maxInt in *; lia).
  repeat split; [lia |].
  rewrite Forall_map in Hall. eapply Forall_impl; [| exact Hall].
  intros t Ht. simpl in Ht. lia.
Qed.

(** ** The in-memory loops *)

Lemma complete_loop_absent (id : Z) (tasks : list Task) :
  Forall (fun t => ID t <> id) tasks -> complete_loop id tasks = (tasks, false).
Proof.
  induction 1 as [| t tasks Ht _ IH]; simpl; [reflexivity |].
  apply Z.eqb_neq in Ht. rewrite Ht, IH. reflexivity.
Qed.

Lemma complete_loop_first (id : Z) (pre post : list Task) (t : Task) :
  Forall (fun x => ID x <> id) pre -> ID t = id ->
  complete_loop id (pre ++ t :: post)
  = (pre ++ mkTask (ID t) (Description t) (CreatedAt t) true :: post, true).
Proof.
  intros Hpre Ht. induction Hpre as [| x pre Hx _ IH]; simpl.
  - apply Z.eqb_eq in Ht. rewrite Ht. reflexivity.
  - apply Z.eqb_neq in Hx. rewrite Hx, IH. reflexivity.
Qed.

Lemma delete_loop_filter (id : Z) (tasks : list Task) :
  forall newTasks found,
    delete_loop id tasks newTasks found
    = (newTasks ++ filter (fun t => negb (ID t =? id)) tasks,
       found || existsb (fun t => ID t =? id) tasks).
Proof.
  induction tasks as [| t tasks IH]; intros newTasks found; simpl.
  - rewrite app_nil_r, orb_false_r. reflexivity.
  - destruct (ID t =? id); simpl; rewrite IH.
    + rewrite orb_true_r. reflexivity.
    + rewrite <- app_assoc. reflexivity.
Qed.

Lemma existsb_absent (id : Z) (tasks : list Task) :
  Forall (fun t => ID t <> id) tasks ->
  existsb (fun t => ID t =? id) tasks = false.
Proof.
  induction 1 as [| t tasks Ht _ IH]; simpl; [reflexivity |].
  apply Z.eqb_neq in Ht. rewrite Ht, IH. reflexivity.
Qed.

(** ** What the codec writes *)

Lemma isDigit_not_LF (c : ascii) : isDigit c = true -> c <> LF.
Proof. intros H ->. discriminate H. Qed.

Lemma formatBits_loop_digits (fuel : nat) :
  forall u acc,
    0 <= u ->
    Forall (fun c => isDigit c = true) acc ->
    Forall (fun c => isDigit c = true) (formatBits_loop fuel u acc).
Proof.
  induction fuel as [| f IH]; intros u acc Hu Hacc; simpl; [exact Hacc |].
  destruct (u <? 10) eqn:E.
  - apply Z.ltb_lt in E. constructor; [| exact Hacc].
    apply digitChar_spec. lia.
  - apply IH.
    + apply Z.div_pos; lia.
    + constructor; [| exact Hacc].
      apply digitChar_spec. pose proof (Z.mod_pos_bound u 10). lia.
Qed.

Lemma formatUint_noLF (u : Z) : 0 <= u -> noLF (formatUint u).
Proof.
  intros Hu Hin.
  pose proof (formatBits_loop_digits 20 u [] Hu (Forall_nil _)) as H.
  rewrite Forall_forall in H.
  apply (isDigit_not_LF LF); [apply H; exact Hin | reflexivity].
Qed.

Lemma Itoa_noLF (i : Z) : noLF (Itoa i).
Proof.
  unfold Itoa. destruct (i <? 0) eqn:E.
  - apply Z.ltb_lt in E. intros [H | H]; [discriminate H |].
    revert H. apply formatUint_noLF. lia.
  - apply Z.ltb_ge in E. apply formatUint_noLF. exact E.
Qed.

Lemma appendInt_noLF (x : Z) (width : nat) : noLF (appendInt x width).
Proof.
  unfold appendInt. intros Hin.
  apply in_app_or in Hin. destruct Hin as [Hin | Hin].
  - destruct (x <? 0); [destruct Hin as [Hin | []]; discriminate Hin
                        | destruct Hin].
  - apply in_app_or in Hin. destruct Hin as [Hin | Hin].
    + apply repeat_spec in Hin. discriminate Hin.
    + revert Hin. apply formatUint_noLF. lia.
Qed.

Lemma noLF_app (a b : bytes) : noLF a -> noLF b -> noLF (a ++ b).
Proof.
  unfold noLF. intros Ha Hb Hin. apply in_app_or in Hin. tauto.
Qed.

Lemma noLF_cons (c : ascii) (b : bytes) : c <> LF -> noLF b -> noLF (c :: b).
Proof. unfold noLF. intros Hc Hb [Hin | Hin]; [congruence | tauto]. Qed.

Lemma formatRFC3339_noLF (t : Time) : noLF (formatRFC3339 t).
Proof.
  unfold formatRFC3339, formatZone.
  repeat first
    [ apply noLF_app; [apply appendInt_noLF |]
    | apply noLF_cons; [discriminate |]
    | apply appendInt_noLF ].
  destruct (offset t =? 0).
  - apply noLF_cons; [discriminate | intros []].
  - apply noLF_cons; [destruct (Z.quot (offset t) 60 <? 0); discriminate |].
    apply noLF_app; [apply appendInt_noLF |].
    apply noLF_cons; [discriminate |].
    rewrite <- (app_nil_r (appendInt _ 2)).
    apply noLF_app; [apply appendInt_noLF | intros []].
Qed.

Lemma FormatBool_noLF (b : bool) : noLF (FormatBool b).
Proof.
  destruct b; intros H; simpl in H;
    repeat (destruct H as [H | H]; [discriminate H |]); exact H.
Qed.

Lemma encode_plain (task : Task) :
  noLF (Description task) -> plainRecord 4 (encode task).
Proof.
  intros H. split; [reflexivity |].
  unfold encode. repeat constructor; auto using Itoa_noLF,
    formatRFC3339_noLF, FormatBool_noLF.
Qed.

Lemma header_plain : plainRecord 4 header.
Proof.
  split; [reflexivity |].
  unfold header. repeat constructor; intros H; simpl in H;
    repeat (destruct H as [H | H]; [discriminate H |]); exact H.
Qed.

Lemma serialize_eq (tasks : list Task) :
  serialize tasks = concat (map csvWrite (header :: map encode tasks)).
Proof. unfold serialize. cbn [map concat]. rewrite map_map. reflexivity. Qed.

Lemma ReadAll_serialize (tasks : list Task) :
  Forall (fun t => noLF (Description t)) tasks ->
  ReadAll (serialize tasks) = CsvOk (header :: map encode tasks).
Proof.
  intros H. rewrite serialize_eq. apply ReadAll_written.
  - cbn. lia.
  - constructor; [apply header_plain |].
    rewrite Forall_map. eapply Forall_impl; [| exact H].
    intros t Ht. apply encode_plain. exact Ht.
Qed.

(** ** The codec on a written record *)

Lemma parseBool_FormatBool (b : bool) : parseBoolOrFalse (FormatBool b) = b.
Proof. destruct b; reflexivity. Qed.

Lemma decode_encode_writable (task : Task) :
  writable task -> decode (encode task) = Ok (reload task).
Proof.
  intros (Hid & _ & Htime).
  unfold decode, encode, index, reload. cbn [nth_error bindR].
  rewrite (Atoi_Itoa _ Hid), parseBool_FormatBool.
  unfold timeParse. rewrite (parse_format _ Htime). reflexivity.
Qed.

Lemma reload_storable (task : Task) : storable task -> reload task = task.
Proof.
  intros (_ & _ & _ & Hn). destruct task as [i d [y mo dd h mi s n o] b].
  simpl in Hn. subst n. reflexivity.
Qed.

Lemma storable_writable (task : Task) : storable task -> writable task.
Proof.
  intros (H1 & H2 & H3 & _). split; [exact H1 | split; [exact H2 | exact H3]].
Qed.

Lemma decodeAll_encode (tasks : list Task) :
  Forall writable tasks ->
  forall acc, decodeAll (map encode tasks) acc = Ok (acc ++ map reload tasks).
Proof.
  induction 1 as [| t tasks Ht _ IH]; intros acc; cbn [map decodeAll].
  - rewrite app_nil_r. reflexivity.
  - rewrite (decode_encode_writable _ Ht). cbn [bindR].
    rewrite IH, <- app_assoc. reflexivity.
Qed.

(** ** The data file *)

Lemma loadFile_existing (w : World) (content : bytes) :
  disk w = Some content -> loadFile w = (content, w).
Proof. intros H. unfold loadFile. rewrite H. reflexivity. Qed.

Lemma loadTasks_serialized (w : World) (tasks : list Task) :
  disk w = Some (serialize tasks) ->
  Forall writable tasks ->
  loadTasks w = (Ok (map reload tasks), w).
Proof.
  intros Hd Hw. unfold loadTasks.
  rewrite (loadFile_existing _ _ Hd), ReadAll_serialize.
  - cbn [tl]. rewrite decodeAll_encode by assumption. reflexivity.
  - eapply Forall_impl; [| exact Hw]. intros t Ht. apply Ht.
Qed.

Lemma overwrite_all (old new : bytes) :
  (length old <= length new)%nat -> overwrite old new = new.
Proof.
  intros H. unfold overwrite. rewrite skipn_all2 by exact H.
  apply app_nil_r.
Qed.

Lemma disk_saveTasks (tasks : list Task) (w : World) :
  disk (saveTasks tasks w)
  = Some (overwrite (match disk w with Some c => c | None => [] end)
            (serialize tasks)).
Proof. unfold saveTasks, loadFile. destruct (disk w); reflexivity. Qed.

Lemma saves_saveTasks (tasks : list Task) (w : World) :
  saves (saveTasks tasks w) = saves w ++ [tasks].
Proof. unfold saveTasks, loadFile. destruct (disk w); reflexivity. Qed.

Lemma map_reload_storable (tasks : list Task) :
  Forall storable tasks -> map reload tasks = tasks.
Proof.
  induction 1 as [| t tasks Ht _ IH]; simpl; [reflexivity |].
  rewrite (reload_storable _ Ht), IH. reflexivity.
Qed.

(** ** The bound of the reader is never reached *)

Lemma splitLine_length (input : bytes) :
  (length (fst (splitLine input)) + length (snd (splitLine input))
   = length input)%nat
  /\ (input <> [] -> fst (splitLine input) <> []).
Proof.
  induction input as [| c input [IH1 IH2]]; simpl.
  - split; [reflexivity | congruence].
  - destruct (byte_eqb c LF); simpl.
    + split; [reflexivity | discriminate].
    + destruct (splitLine input) as [l r]. simpl in *.
      split; [lia | discriminate].
Qed.

Lemma dropTrailingCR_length (line : bytes) :
  (length (dropTrailingCR line) <= length line)%nat.
Proof.
  unfold dropTrailingCR. destruct (rev line) as [| c r] eqn:E; [lia |].
  destruct (byte_eqb c CR); [| lia].
  rewrite <- (rev_involutive line), E, !length_rev. simpl. lia.
Qed.

Lemma normalizeCRLF_length (line : bytes) :
  (length (normalizeCRLF line) <= length line)%nat.
Proof.
  unfold normalizeCRLF. destruct (rev line) as [| c1 [| c2 r]] eqn:E; try lia.
  destruct (byte_eqb c1 LF && byte_eqb c2 CR); [| lia].
  rewrite <- (rev_involutive line), E, !length_rev. simpl. lia.
Qed.

Lemma readLine_length (input line rest : bytes) :
  readLine input = Some (line, rest) ->
  (length line + length rest <= length input)%nat
  /\ (length rest < length input)%nat.
Proof.
  destruct input as [| c input]; [discriminate |].
  unfold readLine.
  destruct (splitLine_length (c :: input)) as [H1 H2].
  destruct (splitLine (c :: input)) as [l r]. simpl in H1, H2.
  intros H. injection H as <- <-.
  specialize (H2 ltac:(discriminate)).
  assert (length l <> 0)%nat by (destruct l; simpl; congruence).
  pose proof (dropTrailingCR_length l).
  pose proof (normalizeCRLF_length
                (if (lengthNL l =? 1)%nat then l else dropTrailingCR l)).
  cbn [length].
  destruct (lengthNL l =? 1)%nat; lia.
Qed.

Lemma IndexByte_lt (b : bytes) (c : ascii) (i : nat) :
  IndexByte b c = Some i -> (i < length b)%nat.
Proof.
  revert i. induction b as [| x b IH]; intros i; simpl; [discriminate |].
  destruct (byte_eqb x c).
  - intros H. injection H as <-. lia.
  - destruct (IndexByte b c) as [j |]; [| discriminate].
    intros H. injection H as <-. specialize (IH j eq_refl). lia.
Qed.

Lemma parse_total (fuel : nat) :
  (forall line rest acc,
      (length line + length rest < fuel)%nat ->
      readBounded rest (parseField fuel line rest acc))
  /\ (forall line rest buf acc,
         (length line + length rest < fuel)%nat ->
         readBounded rest (parseQuoted fuel line rest buf acc)).
Proof.
  induction fuel as [| f [IHf IHq]]; [split; intros; lia |].
  split.
  - intros line rest acc Hlt.
    assert (Hplain : readBounded rest
      match IndexByte line COMMA with
      | Some i =>
          let field := firstn i line in
          if hasQuote field then RecErr ErrBareQuote
          else parseField f (skipn (S i) line) rest (acc ++ [field])
      | None =>
          let field := firstn (length line - lengthNL line) line in
          if hasQuote field then RecErr ErrBareQuote
          else RecOk (acc ++ [field]) rest
      end).
    { destruct (IndexByte line COMMA) as [i |] eqn:Ei; cbv zeta.
      - destruct (hasQuote (firstn i line)); [exact I |].
        apply IHf. apply IndexByte_lt in Ei. rewrite length_skipn. lia.
      - destruct (hasQuote _); [exact I | simpl; lia]. }
    destruct line as [| c line']; [exact Hplain |].
    cbn [parseField]. destruct (byte_eqb c QUOTE); [| exact Hplain].
    apply IHq. cbn [length] in Hlt. lia.
  - intros line rest buf acc Hlt. rewrite parseQuoted_eq.
    destruct (IndexByte line QUOTE) as [i |] eqn:Ei; cbv zeta.
    + apply IndexByte_lt in Ei.
      assert (Hs : (length (skipn (S i) line) < length line)%nat)
        by (rewrite length_skipn; lia).
      destruct (skipn (S i) line) as [| c line''] eqn:Es; [simpl; lia |].
      cbn [length] in Hs.
      destruct (byte_eqb c QUOTE); [apply IHq; lia |].
      destruct (byte_eqb c COMMA); [apply IHf; lia |].
      destruct (_ =? _)%nat; [simpl; lia | exact I].
    + destruct line as [| c line']; [exact I |].
      cbn [length] in Hlt.
      destruct (readLine rest) as [[l r] |] eqn:Er.
      * apply readLine_length in Er.
        pose proof (IHq l r (buf ++ c :: line') acc ltac:(lia)) as H.
        destruct (parseQuoted f l r (buf ++ c :: line') acc);
          simpl in *; auto; lia.
      * pose proof (IHq [] [] (buf ++ c :: line') acc
                      ltac:(simpl; lia)) as H.
        destruct (parseQuoted f [] [] (buf ++ c :: line') acc);
          simpl in *; auto; lia.
Qed.

Lemma readRecord_total (fuel : nat) :
  forall input,
    (length input < fuel)%nat ->
    match readRecord fuel input with
    | RecFuel => False
    | RecOk _ rest => (length rest < length input)%nat
    | _ => True
    end.
Proof.
  induction fuel as [| f IH]; intros input Hlt; [lia |].
  cbn [readRecord].
  destruct (readLine input) as [[line rest] |] eqn:Er; [| exact I].
  apply readLine_length in Er.
  destruct (length line =? lengthNL line)%nat.
  - specialize (IH rest ltac:(lia)).
    destruct (readRecord f rest); auto; lia.
  - pose proof (proj1 (parse_total (2 + length line + length rest))
                  line rest [] ltac:(lia)) as H.
    destruct (parseField _ line rest []); simpl in *; auto; lia.
Qed.

Lemma readAll_loop_total (fuel : nat) :
  forall input n acc,
    (length input < fuel)%nat -> readAll_loop fuel input n acc <> CsvFuel.
Proof.
  induction fuel as [| f IH]; intros input n acc Hlt; [lia |].
  cbn [readAll_loop].
  pose proof (readRecord_total (S (length input)) input ltac:(lia)) as H.
  destruct (readRecord (S (length input)) input) as [r rest | e | |];
    try discriminate; [| contradiction].
  destruct (0 <? n)%nat.
  - destruct (length r =? n)%nat; [| discriminate]. apply IH. lia.
  - apply IH. lia.
Qed.

(** ReadAll always returns records or an error. *)
Lemma ReadAll_total (input : bytes) : ReadAll input <> CsvFuel.
Proof. apply readAll_loop_total. lia. Qed.

(** ** loadTasks and the commands on any store *)

Lemma loadTasks_fst (w : World) :
  fst (loadTasks w) =
  match ReadAll (fileContent w) with
  | CsvOk records => decodeAll (tl records) []
  | CsvErr e => Err (ErrReadCSV e)
  | CsvFuel => Panic FuelExhausted
  end.
Proof.
  unfold loadTasks, loadFile, fileContent.
  destruct (disk w); cbn [fst]; destruct (ReadAll _); reflexivity.
Qed.

Lemma loadTasks_snd (w : World) :
  snd (loadTasks w) = mkWorld (Some (fileContent w)) (saves w).
Proof.
  destruct w as [[c |] s]; unfold loadTasks, loadFile, fileContent;
    cbn [disk saves]; destruct (ReadAll _); reflexivity.
Qed.

Lemma loadTasks_existing (w : World) :
  disk w <> None -> snd (loadTasks w) = w.
Proof.
  intros H. rewrite loadTasks_snd. destruct w as [[c |] s];
    [reflexivity | contradiction].
Qed.

Lemma loadTasks_pair (w : World) :
  loadTasks w = (fst (loadTasks w), snd (loadTasks w)).
Proof. apply surjective_pairing. Qed.

Lemma decode_not_Err (record : list bytes) (e : error) :
  decode record <> Err e.
Proof.
  unfold decode, index.
  destruct (nth_error record 0); cbn [bindR]; [| discriminate].
  destruct (nth_error record 2); cbn [bindR]; [| discriminate].
  destruct (nth_error record 3); cbn [bindR]; [| discriminate].
  destruct (nth_error record 1); cbn [bindR]; discriminate.
Qed.

Lemma decodeAll_not_Err (records : list (list bytes)) :
  forall acc e, decodeAll records acc <> Err e.
Proof.
  induction records as [| r records IH]; intros acc e; cbn [decodeAll];
    [discriminate |].
  pose proof (decode_not_Err r) as H.
  destruct (decode r) as [t | e' | p]; cbn [bindR];
    [apply IH | exfalso; apply (H e'); reflexivity | discriminate].
Qed.

(** ** C8: what the list command prints *)

(** C8. Without the "all" flag the list command prints, after its header
    line, a row for exactly the tasks that are not completed, in order; with
    the flag it prints a row for every task. *)
Theorem list_rows (TimeDiff : Time -> bytes) (tasks : list Task) (w : World) :
  fst (loadTasks w) = Ok tasks ->
  fst (listCmd TimeDiff false w)
  = Ok (listHeader false
        :: map (rowOpen TimeDiff)
             (filter (fun t => negb (IsCompleted t)) tasks))
  /\ fst (listCmd TimeDiff true w)
     = Ok (listHeader true :: map (rowAll TimeDiff) tasks).
Proof.
  intros Hload. unfold listCmd, listCmd_print.
  rewrite (loadTasks_pair w), Hload. cbn [fst].
  split; do 2 f_equal; clear Hload.
  - induction tasks as [| t tasks IH]; simpl; [reflexivity |].
    destruct (IsCompleted t); simpl; rewrite IH; reflexivity.
  - induction tasks as [| t tasks IH]; simpl; [reflexivity |].
    rewrite IH. reflexivity.
Qed.

Lemma list_rows_witness :
  fst (loadTasks (storeOf [taskA; taskB])) = Ok [taskA; taskB]
  /\ fst (listCmd (fun _ => str "now") true (storeOf [taskA; taskB]))
     = Ok (listHeader true :: map (rowAll (fun _ => str "now")) [taskA; taskB]).
Proof.
  split; [vm_compute; reflexivity |].
  apply (list_rows (fun _ => str "now") [taskA; taskB]
           (storeOf [taskA; taskB])).
  vm_compute. reflexivity.
Defined.

(** ** C10: a repeated ID *)

(** C10. When the loaded list holds a task with the given ID, complete marks
    the first such task and leaves every other task, later ones with the
    same ID included, as it was; delete keeps exactly the tasks whose ID
    differs.  Both save the resulting list. *)
Theorem repeated_id (arg : bytes) (id : Z) (w : World)
    (pre post : list Task) (t : Task) :
  Atoi arg = (id, None) ->
  fst (loadTasks w) = Ok (pre ++ t :: post) ->
  Forall (fun x => ID x <> id) pre ->
  ID t = id ->
  completeCmd arg w
  = (Ok (Completed id),
     saveTasks
       (pre ++ mkTask (ID t) (Description t) (CreatedAt t) true :: post)
       (snd (loadTasks w)))
  /\ deleteCmd arg w
     = (Ok (Deleted id),
        saveTasks (filter (fun x => negb (ID x =? id)) (pre ++ t :: post))
          (snd (loadTasks w)))
  /\ Forall (fun x => ID x <> id)
       (filter (fun x => negb (ID x =? id)) (pre ++ t :: post)).
Proof.
  intros Harg Hload Hpre Ht. split; [| split].
  - unfold completeCmd. rewrite Harg, (loadTasks_pair w), Hload.
    rewrite (complete_loop_first id pre post t Hpre Ht). reflexivity.
  - unfold deleteCmd. rewrite Harg, (loadTasks_pair w), Hload.
    assert (Ecap : (Z.of_nat (length (pre ++ t :: post)) - 1 <? 0) = false).
    { apply Z.ltb_ge. rewrite length_app. cbn [length]. lia. }
    rewrite Ecap, delete_loop_filter. cbn [app orb].
    assert (Ex : existsb (fun x => ID x =? id) (pre ++ t :: post) = true).
    { apply existsb_exists. exists t. split.
      - apply in_or_app. right. left. reflexivity.
      - apply Z.eqb_eq. exact Ht. }
    rewrite Ex. reflexivity.
  - apply Forall_forall. intros x Hx. apply filter_In in Hx.
    destruct Hx as [_ Hx]. apply negb_true_iff in Hx.
    apply Z.eqb_neq in Hx. exact Hx.
Qed.

Lemma repeated_id_witness :
  fst (loadTasks (storeOf [taskB; taskA; taskA'])) = Ok [taskB; taskA; taskA']
  /\ completeCmd (str "1") (storeOf [taskB; taskA; taskA'])
     = (Ok (Completed 1),
        saveTasks [taskB; mkTask 1 (str "a") sampleTime true; taskA']
          (snd (loadTasks (storeOf [taskB; taskA; taskA'])))).
Proof.
  split; [vm_compute; reflexivity |].
  apply (repeated_id (str "1") 1 (storeOf [taskB; taskA; taskA'])
           [taskB] [taskA'] taskA).
  - reflexivity.
  - vm_compute. reflexivity.
  - repeat constructor. discriminate.
  - reflexivity.
Defined.

(** ** C5: an ID that no stored task has *)

(** X1. On an existing file, complete with an ID that no loaded task has
    returns the not-found error and leaves the whole store - file and
    saves - exactly as it was. *)
Lemma completeCmd_absent (arg : bytes) (id : Z) (w : World)
    (tasks : list Task) :
  Atoi arg = (id, None) ->
  disk w <> None ->
  fst (loadTasks w) = Ok tasks ->
  Forall (fun t => ID t <> id) tasks ->
  completeCmd arg w = (Err (ErrNotFound id), w).
Proof.
  intros Harg Hdisk Hload Habs. unfold completeCmd.
  rewrite Harg, (loadTasks_pair w), Hload, (loadTasks_existing w Hdisk).
  rewrite (complete_loop_absent id tasks Habs). reflexivity.
Qed.

(** X2. On an existing file that holds at least one task, delete with an
    ID that no loaded task has returns the not-found error and leaves the
    whole store exactly as it was. *)
Lemma deleteCmd_absent (arg : bytes) (id : Z) (w : World)
    (tasks : list Task) :
  Atoi arg = (id, None) ->
  disk w <> None ->
  fst (loadTasks w) = Ok tasks ->
  tasks <> [] ->
  Forall (fun t => ID t <> id) tasks ->
  deleteCmd arg w = (Err (ErrNotFound id), w).
Proof.
  intros Harg Hdisk Hload Hne Habs. unfold deleteCmd.
  rewrite Harg, (loadTasks_pair w), Hload, (loadTasks_existing w Hdisk).
  assert (Ecap : (Z.of_nat (length tasks) - 1 <? 0) = false).
  { apply Z.ltb_ge. destruct tasks; [congruence | cbn [length]; lia]. }
  rewrite Ecap, delete_loop_filter, (existsb_absent id tasks Habs).
  reflexivity.
Qed.

Lemma deleteCmd_empty (arg : bytes) (id : Z) (w : World) :
  Atoi arg = (id, None) ->
  fst (loadTasks w) = Ok [] ->
  fst (deleteCmd arg w) = Panic (MakesliceCap (-1)).
Proof.
  intros Harg Hload. unfold deleteCmd.
  rewrite Harg, (loadTasks_pair w), Hload. reflexivity.
Qed.

(** C5, at the input where the code departs from it.  On an existing store
    that holds no task (the header alone, or an empty file), delete with any
    ID stops in the panic of [make] with capacity -1: it does not return the
    not-found error.  The file is left as it was and nothing is saved. *)
Theorem delete_on_empty_store_panics :
  fst (loadTasks (storeOf [])) = Ok []
  /\ deleteCmd (str "99") (storeOf [])
     = (Panic (MakesliceCap (-1)), storeOf [])
  /\ deleteCmd (str "99") (mkWorld (Some []) [])
     = (Panic (MakesliceCap (-1)), mkWorld (Some []) []).
Proof. repeat split; vm_compute; reflexivity. Qed.

(** ** C7: the IDs of a saved list *)

(** C7, at a history where the code departs from it.  After two adds,
    deleting task 1 leaves the bytes of the old last record behind the
    shorter content, so the store holds task 2 twice; completing task 2 then
    saves a list in which the ID 2 occurs twice. *)
Theorem duplicate_ids_saved :
  let history := [OpAdd (str "a") sampleTime; OpAdd (str "b") sampleTime;
                  OpDelete (str "1"); OpComplete (str "2")] in
  fst (run history emptyStore)
  = [Ok (Added 1 (str "a")); Ok (Added 2 (str "b")); Ok (Deleted 1);
     Ok (Completed 2)]
  /\ map (map ID) (saves (snd (run history emptyStore)))
     = [[1]; [1; 2]; [2]; [2; 2]]
  /\ ~ NoDup [2; 2].
Proof.
  repeat split; try (vm_compute; reflexivity).
  intros H. inversion H as [| x l Hin _]. apply Hin. left. reflexivity.
Qed.

(** ** C1: save, then load *)

Lemma validTask_taskB : validTask taskB.
Proof.
  unfold validTask, validTime, isInt, minInt, maxInt. simpl.
  repeat split; try by_eval. no_line_feed.
Qed.

Lemma validTask_taskNs : validTask taskNs.
Proof.
  unfold validTask, validTime, isInt, minInt, maxInt. simpl.
  repeat split; try by_eval. no_line_feed.
Qed.

(** C1 as worded fails in two ways.  A timestamp with nanoseconds comes
    back cut to the second: the layout has no fractional second.  And when
    the file held more bytes than are written, the bytes beyond stay:
    saving [taskB] over the file of [taskA; taskB] leaves the old last
    record in place, and the load returns [taskB] twice. *)
Lemma save_load_counterexample :
  fst (loadTasks (saveTasks [taskNs] emptyStore)) = Ok [taskA]
  /\ fst (loadTasks (saveTasks [taskB] (storeOf [taskA; taskB])))
     = Ok [taskB; taskB]
  /\ ~ saveLoadLaw.
Proof.
  split; [vm_compute; reflexivity | split; [vm_compute; reflexivity |]].
  intros H.
  specialize (H emptyStore [taskNs]
                (Forall_cons _ validTask_taskNs (Forall_nil _))).
  vm_compute in H. discriminate H.
Qed.

(** C1, amended.  saveTasks writes the header and one record per task, in
    order, from the start of the file.  When the file is absent or holds no
    more bytes than that, and every task has an ID in the int range, a
    description without line feed and a timestamp the RFC3339 layout can
    carry, the file then holds exactly these bytes and loadTasks returns the
    tasks saved, in order, with each timestamp cut to the whole second:
    unchanged when no timestamp has nanoseconds. *)
Theorem save_then_load (w : World) (tasks : list Task) :
  Forall writable tasks ->
  (length (fileContent w) <= length (serialize tasks))%nat ->
  disk (saveTasks tasks w) = Some (serialize tasks)
  /\ fst (loadTasks (saveTasks tasks w)) = Ok (map reload tasks)
  /\ (Forall storable tasks ->
      fst (loadTasks (saveTasks tasks w)) = Ok tasks).
Proof.
  intros Hw Hlen.
  assert (Hd : disk (saveTasks tasks w) = Some (serialize tasks)).
  { rewrite disk_saveTasks. fold (fileContent w).
    rewrite overwrite_all by exact Hlen. reflexivity. }
  rewrite (loadTasks_serialized _ tasks Hd Hw). cbn [fst].
  split; [exact Hd | split; [reflexivity |]].
  intros Hst. rewrite map_reload_storable by exact Hst. reflexivity.
Qed.

Lemma storable_taskA : storable taskA.
Proof.
  unfold storable, wholeSecond, clockTime, isInt, minInt, maxInt.
  simpl. repeat split; try by_eval. no_line_feed.
Qed.

Lemma storable_taskB : storable taskB.
Proof.
  unfold storable, wholeSecond, clockTime, isInt, minInt, maxInt.
  simpl. repeat split; try by_eval. no_line_feed.
Qed.

Lemma save_then_load_witness :
  disk (saveTasks [taskA; taskB] (storeOf [taskA]))
  = Some (serialize [taskA; taskB])
  /\ fst (loadTasks (saveTasks [taskA; taskB] (storeOf [taskA])))
     = Ok [taskA; taskB].
Proof.
  destruct (save_then_load (storeOf [taskA]) [taskA; taskB]) as (H1 & H2 & _).
  - exact (Forall_cons _ (storable_writable _ storable_taskA)
             (Forall_cons _ (storable_writable _ storable_taskB)
                (Forall_nil _))).
  - vm_compute. lia.
  - split; [exact H1 | exact H2].
Defined.

(** ** C2: the record codec *)

(** C2 as worded fails on a timestamp with nanoseconds, which is what
    time.Now() gives addCmd: the layout has no fractional second. *)
Lemma codec_counterexample : ~ codecLaw.
Proof.
  intros H. specialize (H taskNs validTask_taskNs).
  vm_compute in H. discriminate H.
Qed.

(** C2, amended.  For a task with an ID in the int range, a description
    without line feed and a timestamp the RFC3339 layout can carry (year
    0..9999, zone offset of whole minutes), decoding the encoded record
    returns the task with its timestamp cut to the whole second - the task
    itself when it has no nanoseconds - and the CSV reader returns the
    encoded record from the line the CSV writer makes of it, whatever
    commas, quotes or leading blanks the description holds. *)
Theorem decode_encode (task : Task) :
  writable task ->
  decode (encode task) = Ok (reload task)
  /\ (storable task -> decode (encode task) = Ok task)
  /\ ReadAll (csvWrite (encode task)) = CsvOk [encode task].
Proof.
  intros Hw. rewrite (decode_encode_writable _ Hw).
  split; [reflexivity | split].
  - intros Hst. rewrite (reload_storable _ Hst). reflexivity.
  - rewrite <- (app_nil_r (csvWrite (encode task))).
    change (csvWrite (encode task) ++ [])
      with (concat (map csvWrite [encode task])).
    apply ReadAll_written; [cbn; lia |].
    constructor; [| constructor].
    apply encode_plain. apply Hw.
Qed.

Lemma decode_encode_witness :
  decode (encode taskComma) = Ok taskComma
  /\ ReadAll (csvWrite (encode taskComma)) = CsvOk [encode taskComma].
Proof.
  assert (Hst : storable taskComma).
  { unfold storable, wholeSecond, clockTime, isInt, minInt, maxInt.
    simpl. repeat split; try by_eval. no_line_feed. }
  destruct (decode_encode taskComma (storable_writable _ Hst))
    as (_ & H2 & H3).
  split; [exact (H2 Hst) | exact H3].
Defined.

(** ** C3: the IDs the adds assign *)

(** C3 as worded fails: after the two tasks of a store are deleted, the next
    add is given the ID 1 again. *)
Lemma ids_increase_counterexample : ~ idsIncreaseLaw.
Proof.
  intros H.
  specialize (H [OpAdd (str "a") sampleTime; OpAdd (str "bb") sampleTime;
                 OpDelete (str "1"); OpDelete (str "2");
                 OpAdd (str "c") sampleTime]).
  vm_compute in H. discriminate H.
Qed.

(** C3, amended.  An add assigns one more than the largest ID of the task
    list it loads (1 when no ID is positive), when that stays in the int
    range.  The new ID is above every ID in that list, so the ID of a
    deleted task is assigned again only when no task with that ID or a
    larger one is left in the store. *)
Theorem add_assigns_above (description : bytes) (now : Time) (w : World)
    (tasks : list Task) :
  fst (loadTasks w) = Ok tasks ->
  Forall (fun t => ID t < maxInt) tasks ->
  fst (addCmd description now w) = Ok (Added (getNextID tasks) description)
  /\ getNextID tasks = fold_left Z.max (map ID tasks) 0 + 1
  /\ Forall (fun t => ID t < getNextID tasks) tasks
  /\ (forall deleted t, In t tasks -> deleted <= ID t ->
                        getNextID tasks <> deleted).
Proof.
  intros Hload Hmax.
  destruct (getNextID_above tasks Hmax) as (E & Hpos & Habove).
  split; [| split; [| split]].
  - unfold addCmd. rewrite (loadTasks_pair w), Hload. reflexivity.
  - rewrite E, getNextID_loop_max. reflexivity.
  - exact Habove.
  - intros deleted t Hin Hle. rewrite Forall_forall in Habove.
    specialize (Habove t Hin). simpl in Habove. lia.
Qed.

Lemma add_assigns_above_witness :
  fst (addCmd (str "c") sampleTime (storeOf [taskA; taskB]))
  = Ok (Added 3 (str "c")).
Proof.
  apply (add_assigns_above (str "c") sampleTime (storeOf [taskA; taskB])
           [taskA; taskB]).
  - vm_compute. reflexivity.
  - repeat constructor.
Defined.

(** ** C4: fields that do not parse *)

Lemma parseUint_loop_err (s : bytes) :
  forall n,
    match parseUint_loop s n with
    | (v, Some ErrSyntax) => v = 0
    | (v, Some ErrRange) => v = maxUint64
    | (_, None) => True
    end.
Proof.
  induction s as [| c s IH]; intros n; simpl; [exact I |].
  destruct (isDigit c); [| reflexivity].
  destruct (n >=? cutoff10); [reflexivity |].
  destruct (n * 10 + digitVal c >? maxUint64); [reflexivity | apply IH].
Qed.

Lemma ParseInt_err (s : bytes) :
  match ParseInt s with
  | (v, Some ErrSyntax) => v = 0
  | (v, Some ErrRange) => v = maxInt \/ v = minInt
  | (_, None) => True
  end.
Proof.
  unfold ParseInt. destruct s as [| c s]; [reflexivity |].
  destruct (ParseUint _) as [un [[|] |]]; [reflexivity | |];
    repeat match goal with
           | |- context [if ?b then _ else _] => destruct b
           end; auto.
Qed.

Lemma Atoi_err (s : bytes) :
  match Atoi s with
  | (v, Some ErrSyntax) => v = 0
  | (v, Some ErrRange) => v = maxInt \/ v = minInt
  | (_, None) => True
  end.
Proof.
  unfold Atoi.
  destruct ((0 <? length s)%nat && (length s <? 19)%nat);
    [| apply ParseInt_err].
  destruct s as [| c s]; [reflexivity |].
  destruct (_ && _); [reflexivity |].
  destruct (atoi_fast_loop _ 0); [exact I | reflexivity].
Qed.

Lemma decode_four (f0 f1 f2 f3 : bytes) (rest : list bytes) :
  decode (f0 :: f1 :: f2 :: f3 :: rest)
  = Ok (mkTask (fst (Atoi f0)) f1 (timeParse f2) (parseBoolOrFalse f3)).
Proof. reflexivity. Qed.

Lemma decodedFrom_decode (f0 f1 f2 f3 : bytes) (rest : list bytes) :
  decodedFrom (f0 :: f1 :: f2 :: f3 :: rest)
    (mkTask (fst (Atoi f0)) f1 (timeParse f2) (parseBoolOrFalse f3)).
Proof.
  unfold decodedFrom. cbn [nth ID Description CreatedAt IsCompleted].
  pose proof (Atoi_err f0) as HA.
  destruct (Atoi f0) as [v [[|] |]]; cbn [fst snd] in *;
    unfold timeParse, parseBoolOrFalse;
    repeat split; try congruence;
    try (intros t Et; rewrite Et; reflexivity);
    try (intros Et; rewrite Et; reflexivity).
Qed.

Lemma decodeAll_lenient (records : list (list bytes)) :
  Forall (fun r => (4 <= length r)%nat) records ->
  forall acc,
    exists tasks,
      decodeAll records acc = Ok (acc ++ tasks)
      /\ Forall2 decodedFrom records tasks.
Proof.
  induction 1 as [| r records Hr _ IH]; intros acc.
  - exists []. rewrite app_nil_r. split; [reflexivity | constructor].
  - destruct r as [| f0 [| f1 [| f2 [| f3 rest]]]]; cbn [length] in Hr;
      try lia.
    cbn [decodeAll]. rewrite decode_four. cbn [bindR].
    destruct (IH (acc ++ [mkTask (fst (Atoi f0)) f1 (timeParse f2)
                            (parseBoolOrFalse f3)])) as (tasks & E & HF).
    exists (mkTask (fst (Atoi f0)) f1 (timeParse f2) (parseBoolOrFalse f3)
              :: tasks).
    split.
    + rewrite E, <- app_assoc. reflexivity.
    + constructor; [apply decodedFrom_decode | exact HF].
Qed.

(** C4 as worded fails on an ID field whose digits overflow the int range
    before the first byte that is not a digit: Atoi returns the largest int
    with its error, and that, not zero, becomes the ID. *)
Lemma zero_value_counterexample : ~ zeroValueLaw.
Proof.
  intros H.
  specialize (H (mkWorld (Some overflowingID) [])
                [header;
                 [str "99999999999999999999x"; str "a";
                  str "2026-01-01T00:00:00Z"; str "false"]]).
  assert (E : ReadAll (fileContent (mkWorld (Some overflowingID) []))
              = CsvOk [header;
                       [str "99999999999999999999x"; str "a";
                        str "2026-01-01T00:00:00Z"; str "false"]])
    by (vm_compute; reflexivity).
  specialize (H E ltac:(repeat constructor)).
  vm_compute in H. discriminate H.
Qed.

(** C4, amended.  loadTasks returns an error exactly when the CSV reader
    rejects the stream (a bare or unbalanced quote, or a record whose field
    count differs from the first record's), and the error is the reader's.
    When the reader accepts the stream and every record after the first has
    at least four fields, loadTasks returns one task per record, in order,
    each decoded on its own: the description is the second field; a field
    that does not parse never stops the load and yields the value its
    parser returns with the error - 0 for an ID with a syntax error, the
    largest or smallest int for an ID out of range, the zero time, false. *)
Theorem load_is_lenient (w : World) :
  (forall e,
      fst (loadTasks w) = Err e <->
      exists ce, ReadAll (fileContent w) = CsvErr ce /\ e = ErrReadCSV ce)
  /\ (forall records,
         ReadAll (fileContent w) = CsvOk records ->
         Forall (fun r => (4 <= length r)%nat) (tl records) ->
         exists tasks,
           fst (loadTasks w) = Ok tasks
           /\ Forall2 decodedFrom (tl records) tasks).
Proof.
  split.
  - intros e. rewrite loadTasks_fst.
    destruct (ReadAll (fileContent w)) as [records | ce |] eqn:E.
    + split.
      * intros H. exfalso. revert H. apply decodeAll_not_Err.
      * intros (ce & Hce & _). discriminate Hce.
    + split.
      * intros H. injection H as <-. exists ce. auto.
      * intros (ce' & Hce & ->). injection Hce as <-. reflexivity.
    + split; [discriminate |]. intros (ce & Hce & _). discriminate Hce.
  - intros records E Hlen. rewrite loadTasks_fst, E.
    destruct (decodeAll_lenient (tl records) Hlen []) as (tasks & E1 & HF).
    exists tasks. auto.
Qed.

Lemma load_is_lenient_witness :
  exists tasks,
    fst (loadTasks (mkWorld (Some badFields) [])) = Ok tasks
    /\ Forall2 decodedFrom
         [[str "x"; str "a"; str "yesterday"; str "maybe"];
          [str "2"; str "b"; str "2026-01-01T00:00:00Z"; str "false"]]
         tasks.
Proof.
  apply (proj2 (load_is_lenient (mkWorld (Some badFields) []))
           [header;
            [str "x"; str "a"; str "yesterday"; str "maybe"];
            [str "2"; str "b"; str "2026-01-01T00:00:00Z"; str "false"]]).
  - vm_compute. reflexivity.
  - repeat constructor.
Defined.

(** The load of [badFields]: zero values in the first task, the second
    task intact. *)
Example load_badFields :
  fst (loadTasks (mkWorld (Some badFields) []))
  = Ok [mkTask 0 (str "a") zeroTime false; taskB].
Proof. vm_compute. reflexivity. Qed.

(** A record with too few fields, in a stream the reader accepts, stops the
    load in an index panic. *)
Example load_short_records :
  fst (loadTasks (mkWorld (Some (str "ID" ++ LF :: str "7" ++ [LF])) []))
  = Panic (IndexOutOfRange 2 1).
Proof. vm_compute. reflexivity. Qed.

(** A record whose field count differs from the header's is a decode
    error. *)
Example load_wrong_field_count :
  fst (loadTasks
         (mkWorld (Some (serialize [] ++ str "7,a,b" ++ [LF])) []))
  = Err (ErrReadCSV ErrFieldCount).
Proof. vm_compute. reflexivity. Qed.

(** ** C6: adds on a fresh store *)

Lemma wrap_isInt (z : Z) : isInt (wrap z).
Proof.
  unfold isInt, wrap, minInt, maxInt.
  pose proof (Z.mod_pos_bound (z + 2 ^ 63) (2 ^ 64) ltac:(lia)) as H.
  change (2 ^ 63) with 9223372036854775808 in *.
  change (2 ^ 64) with 18446744073709551616 in *. lia.
Qed.

Lemma encode_reload (task : Task) : encode (reload task) = encode task.
Proof. reflexivity. Qed.

Lemma serialize_map_reload (tasks : list Task) :
  serialize (map reload tasks) = serialize tasks.
Proof.
  unfold serialize. rewrite map_map. f_equal.
Qed.

Lemma serialize_app (tasks : list Task) (task : Task) :
  serialize (tasks ++ [task]) = serialize tasks ++ csvWrite (encode task).
Proof.
  unfold serialize. rewrite map_app, concat_app. cbn [map concat].
  rewrite app_nil_r, app_assoc. reflexivity.
Qed.

Lemma writable_reload (task : Task) : writable task -> writable (reload task).
Proof.
  intros (H1 & H2 & H3). split; [exact H1 | split; [exact H2 |]].
  unfold clockTime in *. cbn [reload CreatedAt truncSecond year month day
    hour minute second nsec offset]. intuition lia.
Qed.

Lemma loadTasks_holds (w : World) (tasks : list Task) :
  storeHolds w tasks ->
  fst (loadTasks w) = Ok (map reload tasks)
  /\ (length (fileContent w) <= length (serialize tasks))%nat.
Proof.
  intros [Hw [Hd | [-> Hfresh]]].
  - rewrite (loadTasks_serialized w tasks Hd Hw).
    unfold fileContent. rewrite Hd. split; [reflexivity | lia].
  - rewrite loadTasks_fst. unfold fileContent.
    destruct Hfresh as [E | [E | E]]; rewrite E;
      split; try reflexivity; cbn [length]; lia.
Qed.

Lemma addCmd_holds (description : bytes) (now : Time) (w : World)
    (tasks : list Task) :
  storeHolds w tasks ->
  noLF description -> clockTime now ->
  let added := mkTask (getNextID (map reload tasks)) description now false in
  fst (addCmd description now w) = Ok (Added (ID added) description)
  /\ storeHolds (snd (addCmd description now w))
       (map reload tasks ++ [added]).
Proof.
  intros Hst Hd Hnow added.
  destruct (loadTasks_holds w tasks Hst) as [Hload Hlen].
  unfold addCmd. rewrite (loadTasks_pair w), Hload. cbn [fst snd].
  split; [reflexivity |].
  fold added. split.
  - apply Forall_app. split.
    + rewrite Forall_map. eapply Forall_impl; [| apply Hst].
      apply writable_reload.
    + constructor; [| constructor].
      split; [apply wrap_isInt | split; assumption].
  - left. rewrite disk_saveTasks, loadTasks_snd. cbn [disk].
    rewrite overwrite_all; [reflexivity |].
    rewrite serialize_app, serialize_map_reload, length_app. lia.
Qed.

Lemma ids_below (tasks : list Task) (k : nat) :
  map ID tasks = map Z.of_nat (seq 1 k) ->
  getNextID_loop tasks 0 = Z.of_nat k.
Proof.
  intros H. rewrite getNextID_loop_max, H. apply fold_max_seq.
Qed.

Lemma map_ID_reload (tasks : list Task) :
  map ID (map reload tasks) = map ID tasks.
Proof. rewrite map_map. reflexivity. Qed.

Lemma getNextID_counts (tasks : list Task) (k : nat) :
  map ID tasks = map Z.of_nat (seq 1 k) ->
  Z.of_nat k < maxInt ->
  getNextID tasks = Z.of_nat (S k).
Proof.
  intros H Hk. unfold getNextID. rewrite (ids_below tasks k H).
  rewrite wrap_id by (unfold isInt, minInt, maxInt in *; lia). lia.
Qed.

Lemma run_adds (adds : list (bytes * Time)) :
  forall (w : World) (tasks : list Task) (k : nat),
    storeHolds w tasks ->
    map ID tasks = map Z.of_nat (seq 1 k) ->
    Forall addable adds ->
    Z.of_nat (k + length adds) < maxInt ->
    fst (run (addOps adds) w) = addedFrom (S k) adds
    /\ exists tasks',
         storeHolds (snd (run (addOps adds) w)) tasks'
         /\ map ID tasks' = map Z.of_nat (seq 1 (k + length adds)).
Proof.
  induction adds as [| [d now] adds IH]; intros w tasks k Hst Hids Hadd Hk.
  - cbn [addOps map run fst snd length]. split; [reflexivity |].
    exists tasks. rewrite Nat.add_0_r. auto.
  - destruct (Forall_inv Hadd) as [Hd Hnow]. cbn [fst snd] in Hd, Hnow.
    cbn [length] in Hk.
    destruct (addCmd_holds d now w tasks Hst Hd Hnow) as [Hr Hst1].
    cbn [ID] in Hr.
    rewrite (getNextID_counts (map reload tasks) k) in Hr, Hst1
      by (rewrite ?map_ID_reload; auto; lia).
    assert (Hids1 : map ID (map reload tasks
                            ++ [mkTask (Z.of_nat (S k)) d now false])
                    = map Z.of_nat (seq 1 (S k))).
    { rewrite map_app, map_ID_reload, Hids, seq_S, map_app. reflexivity. }
    destruct (IH (snd (addCmd d now w)) _ (S k) Hst1 Hids1
                (Forall_inv_tail Hadd) ltac:(lia)) as (E & tasks' & H1 & H2).
    cbn [addOps map run runOp fst snd].
    destruct (addCmd d now w) as [r w1] eqn:Ea. cbn [fst snd] in *.
    fold (addOps adds).
    destruct (run (addOps adds) w1) as [rs w2] eqn:Er. cbn [fst snd] in *.
    split.
    + unfold addedFrom. cbn [length seq combine map fst snd].
      rewrite Hr. f_equal. exact E.
    + exists tasks'. split; [exact H1 |].
      rewrite H2. cbn [length]. f_equal. f_equal. lia.
Qed.

Lemma storeHolds_fresh (w : World) : freshStore w -> storeHolds w [].
Proof. intros H. split; [constructor | right; auto]. Qed.

(** C6. Starting from a fresh store (no file, an empty file, or the header
    alone), N adds with single-line descriptions, at clock readings the
    timestamp layout can carry, all succeed and are given the IDs 1..N; the
    task list then loaded has these IDs and getNextID of it is N+1 (N+1
    being a Go int).  In general getNextID is 1 for the empty list and one
    more than the largest ID for a non-empty list of tasks with positive
    IDs below the largest int. *)
Theorem next_id_after_adds (adds : list (bytes * Time)) (w0 : World) :
  freshStore w0 ->
  Forall addable adds ->
  Z.of_nat (length adds) < maxInt ->
  fst (run (addOps adds) w0) = addedFrom 1 adds
  /\ (exists tasks,
        fst (loadTasks (snd (run (addOps adds) w0))) = Ok tasks
        /\ map ID tasks = map Z.of_nat (seq 1 (length adds))
        /\ getNextID tasks = Z.of_nat (length adds) + 1)
  /\ getNextID [] = 1
  /\ (forall t ts,
        Forall (fun x => 0 < ID x < maxInt) (t :: ts) ->
        getNextID (t :: ts) = 1 + maxID t ts).
Proof.
  intros Hfresh Hadd Hlen.
  destruct (run_adds adds w0 [] 0%nat (storeHolds_fresh w0 Hfresh) eq_refl
              Hadd ltac:(cbn [Nat.add]; exact Hlen))
    as (E & tasks' & Hst & Hids).
  cbn [Nat.add] in Hids.
  split; [exact E | split; [| split; [reflexivity |]]].
  - destruct (loadTasks_holds _ _ Hst) as [Hload _].
    exists (map reload tasks'). split; [exact Hload |].
    rewrite map_ID_reload. split; [exact Hids |].
    rewrite (getNextID_counts (map reload tasks') (length adds))
      by (rewrite ?map_ID_reload; auto).
    lia.
  - intros t ts Hpos.
    assert (Hmax : Forall (fun x => ID x < maxInt) (t :: ts)).
    { eapply Forall_impl; [| exact Hpos]. intros x Hx. simpl in Hx. lia. }
    destruct (getNextID_above (t :: ts) Hmax) as (E1 & _ & _).
    rewrite E1, getNextID_loop_max. unfold maxID. cbn [map fold_left].
    pose proof (Forall_inv Hpos) as Ht. cbn beta in Ht.
    rewrite Z.max_r by lia. lia.
Qed.

Lemma next_id_after_adds_witness :
  fst (run (addOps [(str "buy milk", sampleTimeNs);
                    (str "walk dog", sampleTime)]) emptyStore)
  = [Ok (Added 1 (str "buy milk")); Ok (Added 2 (str "walk dog"))].
Proof.
  apply (next_id_after_adds
           [(str "buy milk", sampleTimeNs); (str "walk dog", sampleTime)]
           emptyStore).
  - left. reflexivity.
  - repeat (apply Forall_cons || apply Forall_nil);
      (split; [no_line_feed |]);
      unfold clockTime; simpl; repeat split; by_eval.
  - unfold maxInt. simpl. lia.
Defined.

(** * Further properties of the code *)

(** ** What a command does to the file *)

Lemma fileContent_loadTasks (w : World) :
  fileContent (snd (loadTasks w)) = fileContent w.
Proof. rewrite loadTasks_snd. reflexivity. Qed.

Lemma saves_loadTasks (w : World) : saves (snd (loadTasks w)) = saves w.
Proof. rewrite loadTasks_snd. reflexivity. Qed.

Lemma fileContent_saveTasks (tasks : list Task) (w : World) :
  fileContent (saveTasks tasks w)
  = overwrite (fileContent w) (serialize tasks).
Proof. unfold fileContent. rewrite disk_saveTasks. reflexivity. Qed.

(** X3. loadTasks, and so the list command, is read-only: whatever the file
    holds and whatever the load returns, the bytes of the file are the ones
    it had (an absent file is created empty) and nothing is saved. *)
Theorem load_is_read_only (TimeDiff : Time -> bytes) (showAll : bool)
    (w : World) :
  disk (snd (loadTasks w)) = Some (fileContent w)
  /\ saves (snd (loadTasks w)) = saves w
  /\ snd (listCmd TimeDiff showAll w) = snd (loadTasks w).
Proof.
  rewrite loadTasks_snd. cbn [disk saves].
  split; [reflexivity | split; [reflexivity |]].
  unfold listCmd. rewrite (loadTasks_pair w), loadTasks_snd.
  destruct (fst (loadTasks w)); reflexivity.
Qed.

Lemma runOp_effect (o : op) (w : World) :
  match fst (runOp o w) with
  | Ok _ =>
      exists saved,
        saves (snd (runOp o w)) = saves w ++ [saved]
        /\ fileContent (snd (runOp o w))
           = overwrite (fileContent w) (serialize saved)
  | _ =>
      saves (snd (runOp o w)) = saves w
      /\ fileContent (snd (runOp o w)) = fileContent w
  end.
Proof.
  pose proof (fileContent_loadTasks w) as HF.
  pose proof (saves_loadTasks w) as HS.
  assert (Hsave : forall saved,
    saves (saveTasks saved (snd (loadTasks w))) = saves w ++ [saved]
    /\ fileContent (saveTasks saved (snd (loadTasks w)))
       = overwrite (fileContent w) (serialize saved)).
  { intros saved. rewrite saves_saveTasks, fileContent_saveTasks, HF, HS.
    auto. }
  destruct o as [d now | arg | arg]; cbn [runOp].
  - unfold addCmd. rewrite (loadTasks_pair w).
    destruct (fst (loadTasks w)) as [tasks | e | p]; cbn [fst snd]; auto.
    eexists. apply Hsave.
  - unfold completeCmd. destruct (Atoi arg) as [id [e |]]; [cbn; auto |].
    rewrite (loadTasks_pair w).
    destruct (fst (loadTasks w)) as [tasks | e | p]; cbn [fst snd]; auto.
    destruct (complete_loop id tasks) as [tasks' found].
    destruct found; cbn [negb fst snd]; auto.
    eexists. apply Hsave.
  - unfold deleteCmd. destruct (Atoi arg) as [id [e |]]; [cbn; auto |].
    rewrite (loadTasks_pair w).
    destruct (fst (loadTasks w)) as [tasks | e | p]; cbn [fst snd]; auto.
    destruct (Z.of_nat (length tasks) - 1 <? 0); cbn [fst snd]; auto.
    destruct (delete_loop id tasks [] false) as [newTasks found].
    destruct found; cbn [negb fst snd]; auto.
    eexists. apply Hsave.
Qed.



(** X5. A command that succeeds saves exactly once, and the file then holds
    the bytes written for the saved list followed by whatever the old
    content had beyond their length. *)
Theorem successful_command_saves_once (o : op) (w : World) (out : output) :
  fst (runOp o w) = Ok out ->
  exists saved,
    saves (snd (runOp o w)) = saves w ++ [saved]
    /\ fileContent (snd (runOp o w))
       = serialize saved ++ skipn (length (serialize saved)) (fileContent w).
Proof.
  intros H. pose proof (runOp_effect o w) as E. rewrite H in E. exact E.
Qed.

Lemma successful_command_saves_once_witness :
  exists saved,
    saves (snd (runOp (OpDelete (str "1")) (storeOf [taskA; taskB])))
    = [] ++ [saved]
    /\ fileContent (snd (runOp (OpDelete (str "1")) (storeOf [taskA; taskB])))
       = serialize saved
           ++ skipn (length (serialize saved)) (serialize [taskA; taskB]).
Proof.
  apply (successful_command_saves_once (OpDelete (str "1"))
           (storeOf [taskA; taskB]) (Deleted 1)).
  vm_compute. reflexivity.
Defined.

Lemma overwrite_length (old new : bytes) :
  length (overwrite old new) = Nat.max (length old) (length new).
Proof.
  unfold overwrite. rewrite length_app, length_skipn. lia.
Qed.

(** X6. The data file never gets shorter: after any history of add,
    complete and delete commands it has at least as many bytes as
    before. *)
Theorem file_never_shrinks (history : list op) (w : World) :
  (length (fileContent w) <= length (fileContent (snd (run history w))))%nat.
Proof.
  revert w. induction history as [| o history IH]; intros w; [cbn; lia |].
  cbn [run]. destruct (runOp o w) as [r w1] eqn:Eo.
  specialize (IH w1).
  destruct (run history w1) as [rs w2]. cbn [snd] in *.
  pose proof (runOp_effect o w) as E. rewrite Eo in E. cbn [fst snd] in E.
  assert (length (fileContent w) <= length (fileContent w1))%nat; [| lia].
  destruct r as [out | e | p].
  - destruct E as (saved & _ & ->). rewrite overwrite_length. lia.
  - destruct E as [_ ->]. lia.
  - destruct E as [_ ->]. lia.
Qed.

(** ** complete and delete in memory *)

(** X7. The loop of complete keeps the number of tasks, their order, IDs,
    descriptions and timestamps; it never clears a completed flag; and it
    reports found exactly when some task has the ID. *)
Theorem complete_changes_one_flag (id : Z) (tasks : list Task) :
  length (fst (complete_loop id tasks)) = length tasks
  /\ map ID (fst (complete_loop id tasks)) = map ID tasks
  /\ map Description (fst (complete_loop id tasks)) = map Description tasks
  /\ map CreatedAt (fst (complete_loop id tasks)) = map CreatedAt tasks
  /\ Forall2 (fun t t' => IsCompleted t = true -> IsCompleted t' = true)
       tasks (fst (complete_loop id tasks))
  /\ snd (complete_loop id tasks) = existsb (fun t => ID t =? id) tasks.
Proof.
  induction tasks as [| t tasks (I1 & I2 & I3 & I4 & I5 & I6)];
    cbn [complete_loop].
  - repeat split; constructor.
  - assert (Hrefl : Forall2
      (fun t t' : Task => IsCompleted t = true -> IsCompleted t' = true)
      tasks tasks).
    { clear. induction tasks; constructor; auto. }
    destruct (ID t =? id) eqn:E; cbn [existsb]; rewrite E; cbn [orb].
    + cbn [fst snd length map]. repeat split. constructor; auto.
    + destruct (complete_loop id tasks) as [rest' found].
      cbn [fst snd length map] in *.
      repeat split; try congruence. constructor; auto.
Qed.

(** ** The next ID at the edges *)

(** X8. IDs that are zero or negative - such as the 0 an unparseable ID
    field decodes to - do not count: when no task has a positive ID the next
    ID is 1. *)
Theorem next_id_ignores_nonpositive (tasks : list Task) :
  Forall (fun t => ID t <= 0) tasks -> getNextID tasks = 1.
Proof.
  intros H. unfold getNextID. rewrite getNextID_loop_max.
  assert (E : fold_left Z.max (map ID tasks) 0 = 0).
  { apply Z.le_antisymm; [| apply fold_max_ge].
    apply fold_max_bound; [lia |]. rewrite Forall_map. exact H. }
  rewrite E. reflexivity.
Qed.

Lemma next_id_ignores_nonpositive_witness :
  getNextID [mkTask 0 (str "a") zeroTime false;
             mkTask (-5) (str "b") sampleTime true] = 1.
Proof.
  apply next_id_ignores_nonpositive.
  repeat constructor; simpl; lia.
Defined.

(** X9. The increment wraps: when a task has the largest int as its ID (and
    no ID is out of the int range), the next ID is the smallest int. *)
Theorem next_id_wraps (tasks : list Task) :
  Forall (fun t => ID t <= maxInt) tasks ->
  Exists (fun t => ID t = maxInt) tasks ->
  getNextID tasks = minInt.
Proof.
  intros Hall Hex. unfold getNextID. rewrite getNextID_loop_max.
  assert (E : fold_left Z.max (map ID tasks) 0 = maxInt).
  { apply Z.le_antisymm.
    - apply fold_max_bound; [unfold maxInt; lia |].
      rewrite Forall_map. exact Hall.
    - destruct (fold_max_ge (map ID tasks) 0) as [_ Hge].
      rewrite Forall_map in Hge. rewrite Forall_forall in Hge.
      apply Exists_exists in Hex. destruct Hex as (t & Hin & Ht).
      specialize (Hge t Hin). cbn beta in Hge. lia. }
  rewrite E. reflexivity.
Qed.

Lemma next_id_wraps_witness :
  getNextID [taskA; mkTask maxInt (str "z") sampleTime false] = minInt.
Proof.
  apply next_id_wraps.
  - repeat constructor; unfold maxInt; simpl; lia.
  - apply Exists_cons_tl. apply Exists_cons_hd. reflexivity.
Defined.

(** The largest int, read from a file, as the base of the next ID. *)
Example add_after_overflowing_id :
  fst (addCmd (str "next") sampleTime (mkWorld (Some overflowingID) []))
  = Ok (Added minInt (str "next")).
Proof. vm_compute. reflexivity. Qed.

Lemma completeCmd_absent_witness :
  completeCmd (str "99") (storeOf [taskA; taskB])
  = (Err (ErrNotFound 99), storeOf [taskA; taskB]).
Proof.
  apply (completeCmd_absent (str "99") 99 (storeOf [taskA; taskB])
           [taskA; taskB]).
  - reflexivity.
  - discriminate.
  - vm_compute. reflexivity.
  - repeat constructor; discriminate.
Defined.

Lemma deleteCmd_absent_witness :
  deleteCmd (str "99") (storeOf [taskA; taskB])
  = (Err (ErrNotFound 99), storeOf [taskA; taskB]).
Proof.
  apply (deleteCmd_absent (str "99") 99 (storeOf [taskA; taskB])
           [taskA; taskB]).
  - reflexivity.
  - discriminate.
  - vm_compute. reflexivity.
  - discriminate.
  - repeat constructor; discriminate.
Defined.

(** ** Saving what was loaded *)

Lemma overwrite_prefix (a b : bytes) : overwrite (a ++ b) a = a ++ b.
Proof.
  unfold overwrite. rewrite skipn_app, skipn_all, Nat.sub_diag.
  reflexivity.
Qed.

Lemma writable_taskA : writable taskA.
Proof. apply storable_writable, storable_taskA. Qed.

Lemma writable_taskB : writable taskB.
Proof. apply storable_writable, storable_taskB. Qed.

Lemma writable_AB : Forall writable [taskA; taskB].
Proof.
  exact (Forall_cons _ writable_taskA
           (Forall_cons _ writable_taskB (Forall_nil _))).
Qed.

(** X10. The stored form is stable: loading a file that saveTasks wrote (for
    tasks with an ID in the int range, a single-line description and a
    timestamp the layout can carry) and saving the loaded list writes the
    same bytes again. *)
Theorem resave_is_stable (w : World) (tasks : list Task) :
  disk w = Some (serialize tasks) ->
  Forall writable tasks ->
  exists loaded,
    fst (loadTasks w) = Ok loaded
    /\ disk (saveTasks loaded (snd (loadTasks w))) = disk w.
Proof.
  intros Hd Hw. exists (map reload tasks).
  rewrite (loadTasks_serialized w tasks Hd Hw). cbn [fst snd].
  split; [reflexivity |].
  rewrite disk_saveTasks, Hd, serialize_map_reload.
  rewrite overwrite_all by lia. reflexivity.
Qed.

Lemma resave_is_stable_witness :
  exists loaded,
    fst (loadTasks (storeOf [taskNs; taskB])) = Ok loaded
    /\ disk (saveTasks loaded (snd (loadTasks (storeOf [taskNs; taskB]))))
       = disk (storeOf [taskNs; taskB]).
Proof.
  apply (resave_is_stable (storeOf [taskNs; taskB]) [taskNs; taskB]).
  - reflexivity.
  - repeat (apply Forall_cons || apply Forall_nil);
      unfold writable, clockTime, isInt, minInt, maxInt; simpl;
      (split; [lia | split; [no_line_feed |]]); repeat split; by_eval.
Defined.

(** ** delete of the task stored last *)

Lemma filter_map_reload (f : Z -> bool) (tasks : list Task) :
  filter (fun t => f (ID t)) (map reload tasks)
  = map reload (filter (fun t => f (ID t)) tasks).
Proof.
  induction tasks as [| t tasks IH]; simpl; [reflexivity |].
  destruct (f (ID t)); simpl; rewrite IH; reflexivity.
Qed.

Lemma filter_drop_last (id : Z) (pre : list Task) (t : Task) :
  Forall (fun x => ID x <> id) pre -> ID t = id ->
  filter (fun x => negb (ID x =? id)) (pre ++ [t]) = pre.
Proof.
  intros Hpre Ht. rewrite filter_app. cbn [filter].
  apply Z.eqb_eq in Ht. rewrite Ht. cbn [negb]. rewrite app_nil_r.
  induction Hpre as [| x pre Hx _ IH]; simpl; [reflexivity |].
  apply Z.eqb_neq in Hx. rewrite Hx, IH. reflexivity.
Qed.

(** X11. delete of the task stored last changes no byte.  When the file is
    what saveTasks wrote for a list whose last task alone has the given ID,
    delete reports success and saves the shorter list, but the record of
    the last task stays behind the shorter content: the file is the same
    and the next load still returns the task. *)
Theorem delete_last_keeps_file (arg : bytes) (id : Z) (w : World)
    (pre : list Task) (t : Task) :
  Atoi arg = (id, None) ->
  disk w = Some (serialize (pre ++ [t])) ->
  Forall writable (pre ++ [t]) ->
  Forall (fun x => ID x <> id) pre ->
  ID t = id ->
  fst (deleteCmd arg w) = Ok (Deleted id)
  /\ saves (snd (deleteCmd arg w)) = saves w ++ [map reload pre]
  /\ disk (snd (deleteCmd arg w)) = disk w
  /\ fst (loadTasks (snd (deleteCmd arg w))) = Ok (map reload (pre ++ [t])).
Proof.
  intros Harg Hd Hw Hpre Ht.
  assert (Hdel : deleteCmd arg w
                 = (Ok (Deleted id), saveTasks (map reload pre) w)).
  { unfold deleteCmd.
    rewrite Harg, (loadTasks_serialized w _ Hd Hw).
    assert (Ecap : (Z.of_nat (length (map reload (pre ++ [t]))) - 1 <? 0)
                   = false).
    { apply Z.ltb_ge. rewrite length_map, length_app. cbn [length]. lia. }
    rewrite Ecap, delete_loop_filter. cbn [app orb].
    rewrite (filter_map_reload (fun i => negb (i =? id))).
    rewrite (filter_drop_last id pre t Hpre Ht).
    assert (Ex : existsb (fun x => ID x =? id) (map reload (pre ++ [t]))
                 = true).
    { apply existsb_exists. exists (reload t). split.
      - apply in_map. apply in_or_app. right. left. reflexivity.
      - apply Z.eqb_eq. exact Ht. }
    rewrite Ex. reflexivity. }
  assert (Hdisk : disk (saveTasks (map reload pre) w) = disk w).
  { rewrite disk_saveTasks, Hd, serialize_map_reload, serialize_app.
    rewrite overwrite_prefix. reflexivity. }
  rewrite Hdel. cbn [fst snd].
  split; [reflexivity | split; [apply saves_saveTasks | split]].
  - exact Hdisk.
  - rewrite (loadTasks_serialized _ (pre ++ [t])); [reflexivity | | exact Hw].
    rewrite Hdisk. exact Hd.
Qed.

Lemma delete_last_keeps_file_witness :
  fst (deleteCmd (str "2") (storeOf [taskA; taskB])) = Ok (Deleted 2)
  /\ saves (snd (deleteCmd (str "2") (storeOf [taskA; taskB])))
     = [] ++ [map reload [taskA]]
  /\ disk (snd (deleteCmd (str "2") (storeOf [taskA; taskB])))
     = disk (storeOf [taskA; taskB])
  /\ fst (loadTasks (snd (deleteCmd (str "2") (storeOf [taskA; taskB]))))
     = Ok (map reload ([taskA] ++ [taskB])).
Proof.
  apply (delete_last_keeps_file (str "2") 2 (storeOf [taskA; taskB])
           [taskA] taskB).
  - reflexivity.
  - reflexivity.
  - exact writable_AB.
  - repeat constructor; discriminate.
  - reflexivity.
Defined.

(** ** The first record *)

(** X12. The first record of the file is skipped whatever it holds: a file
    whose first line is not the header but any four-field record - the
    record of a task, say - loads as the tasks of the records after it. *)
Theorem first_record_is_skipped (w : World) (first : list bytes)
    (tasks : list Task) :
  plainRecord 4 first ->
  Forall writable tasks ->
  disk w = Some (concat (map csvWrite (first :: map encode tasks))) ->
  fst (loadTasks w) = Ok (map reload tasks).
Proof.
  intros Hfirst Hw Hd. rewrite loadTasks_fst. unfold fileContent. rewrite Hd.
  rewrite ReadAll_written.
  - cbn [tl]. apply decodeAll_encode. exact Hw.
  - destruct Hfirst as [-> _]. lia.
  - destruct Hfirst as [Hlen HLF]. rewrite Hlen.
    constructor; [split; assumption |].
    rewrite Forall_map. eapply Forall_impl; [| exact Hw].
    intros t Ht. apply encode_plain. apply Ht.
Qed.

Lemma first_record_is_skipped_witness :
  fst (loadTasks
         (mkWorld (Some (concat (map csvWrite
                                   (encode taskA :: map encode [taskB]))))
            []))
  = Ok (map reload [taskB]).
Proof.
  apply (first_record_is_skipped _ (encode taskA) [taskB]).
  - apply encode_plain. apply writable_taskA.
  - exact (Forall_cons _ writable_taskB (Forall_nil _)).
  - reflexivity.
Defined.

(** ** The argument of complete and delete *)

Lemma atoi_fast_loop_char (s : bytes) :
  forall n,
    atoi_fast_loop s n
    = if forallb isDigit s then Some (decVal s n) else None.
Proof.
  induction s as [| c s IH]; intros n; simpl; [reflexivity |].
  destruct (isDigit c); [apply IH | reflexivity].
Qed.

Lemma decVal_lt (s : bytes) :
  forallb isDigit s = true ->
  forall n, 0 <= n -> decVal s n < (n + 1) * 10 ^ Z.of_nat (length s).
Proof.
  induction s as [| c s IH]; intros H n Hn.
  - simpl. lia.
  - cbn [forallb] in H. apply andb_prop in H. destruct H as [Hc Hs].
    apply isDigit_range in Hc.
    specialize (IH Hs (n * 10 + digitVal c) ltac:(lia)).
    cbn [decVal length]. rewrite Nat2Z.inj_succ, Z.pow_succ_r by lia.
    assert (0 < 10 ^ Z.of_nat (length s)) by (apply Z.pow_pos_nonneg; lia).
    nia.
Qed.

Lemma decVal_nonneg (s : bytes) :
  forallb isDigit s = true -> forall n, 0 <= n -> n <= decVal s n.
Proof.
  intros H. apply decVal_ge. apply Forall_forall. intros c Hc.
  rewrite forallb_forall in H. auto.
Qed.

Lemma parseUint_loop_char (s : bytes) :
  forallb isDigit s = true ->
  forall n,
    0 <= n <= maxUint64 ->
    parseUint_loop s n
    = if decVal s n <=? maxUint64 then (decVal s n, None)
      else (maxUint64, Some ErrRange).
Proof.
  induction s as [| c s IH]; intros H n Hn.
  - simpl. replace (n <=? maxUint64) with true
      by (symmetry; apply Z.leb_le; lia). reflexivity.
  - cbn [forallb] in H. apply andb_prop in H. destruct H as [Hc Hs].
    cbn [parseUint_loop decVal]. rewrite Hc.
    pose proof (isDigit_range c Hc) as Hd.
    pose proof (decVal_nonneg s Hs (n * 10 + digitVal c) ltac:(lia)) as Hge.
    destruct (n >=? cutoff10) eqn:E1.
    + rewrite Z.geb_leb in E1. apply Z.leb_le in E1.
      unfold cutoff10, maxUint64 in *.
      change (18446744073709551615 / 10 + 1) with 1844674407370955162 in E1.
      replace (decVal s (n * 10 + digitVal c) <=? 18446744073709551615)
        with false by (symmetry; apply Z.leb_gt; lia).
      reflexivity.
    + destruct (n * 10 + digitVal c >? maxUint64) eqn:E2.
      * rewrite Z.gtb_ltb in E2. apply Z.ltb_lt in E2.
        replace (decVal s (n * 10 + digitVal c) <=? maxUint64)
          with false by (symmetry; apply Z.leb_gt; lia).
        reflexivity.
      * rewrite Z.gtb_ltb in E2. apply Z.ltb_ge in E2.
        apply IH; [exact Hs | lia].
Qed.

Lemma parseUint_loop_bad (s : bytes) :
  forallb isDigit s = false ->
  forall n, snd (parseUint_loop s n) <> None.
Proof.
  induction s as [| c s IH]; intros H n; [discriminate H |].
  cbn [forallb] in H. cbn [parseUint_loop].
  destruct (isDigit c); [| discriminate].
  cbn [andb] in H.
  destruct (n >=? cutoff10); [discriminate |].
  destruct (n * 10 + digitVal c >? maxUint64); [discriminate |].
  apply IH. exact H.
Qed.

Lemma wrap_neg_wrap (v : Z) :
  0 <= v <= 2 ^ 63 -> wrap (- wrap v) = - v.
Proof.
  intros Hv. destruct (Z.eq_dec v (2 ^ 63)) as [-> | Hne]; [reflexivity |].
  change (2 ^ 63) with 9223372036854775808 in *.
  rewrite (wrap_id v) by (unfold isInt, minInt, maxInt; lia).
  apply wrap_id. unfold isInt, minInt, maxInt. lia.
Qed.

Lemma ParseInt_core (neg : bool) (ds : bytes) :
  ds <> [] ->
  (forallb isDigit ds = true ->
   (let (un, err) := ParseUint ds in
    match err with
    | Some ErrSyntax => (0, Some ErrSyntax)
    | _ =>
        if negb neg && (un >=? 2 ^ 63) then (maxInt, Some ErrRange)
        else if neg && (un >? 2 ^ 63) then (minInt, Some ErrRange)
        else (if neg then wrap (- wrap un) else wrap un, None)
    end)
   = if (minInt <=? (if neg then - decVal ds 0 else decVal ds 0))
        && ((if neg then - decVal ds 0 else decVal ds 0) <=? maxInt)
     then (if neg then - decVal ds 0 else decVal ds 0, None)
     else (if neg then minInt else maxInt, Some ErrRange))
  /\ (forallb isDigit ds = false ->
      snd (let (un, err) := ParseUint ds in
           match err with
           | Some ErrSyntax => (0, Some ErrSyntax)
           | _ =>
               if negb neg && (un >=? 2 ^ 63) then (maxInt, Some ErrRange)
               else if neg && (un >? 2 ^ 63) then (minInt, Some ErrRange)
               else (if neg then wrap (- wrap un) else wrap un, None)
           end) <> None).
Proof.
  intros Hne.
  assert (EU : ParseUint ds = parseUint_loop ds 0)
    by (destruct ds; [congruence | reflexivity]).
  rewrite EU. split.
  - intros Hdig.
    rewrite (parseUint_loop_char ds Hdig 0) by (unfold maxUint64; lia).
    pose proof (decVal_nonneg ds Hdig 0 ltac:(lia)) as Hv0.
    unfold minInt, maxInt, maxUint64.
    change (2 ^ 63) with 9223372036854775808.
    destruct (decVal ds 0 <=? 18446744073709551615) eqn:EU2;
      [apply Z.leb_le in EU2 | apply Z.leb_gt in EU2];
      destruct neg; cbn [negb andb].
    + destruct (decVal ds 0 >? 9223372036854775808) eqn:E;
        rewrite Z.gtb_ltb in E;
        [apply Z.ltb_lt in E | apply Z.ltb_ge in E].
      * replace ((-9223372036854775808 <=? - decVal ds 0)
                 && (- decVal ds 0 <=? 9223372036854775807)) with false;
          [reflexivity |].
        symmetry. apply andb_false_intro1. apply Z.leb_gt. lia.
      * replace ((-9223372036854775808 <=? - decVal ds 0)
                 && (- decVal ds 0 <=? 9223372036854775807)) with true.
        -- rewrite wrap_neg_wrap; [reflexivity |].
           change (2 ^ 63) with 9223372036854775808. lia.
        -- symmetry. apply andb_true_intro. split; apply Z.leb_le; lia.
    + destruct (decVal ds 0 >=? 9223372036854775808) eqn:E;
        rewrite Z.geb_leb in E;
        [apply Z.leb_le in E | apply Z.leb_gt in E].
      * replace ((-9223372036854775808 <=? decVal ds 0)
                 && (decVal ds 0 <=? 9223372036854775807)) with false;
          [reflexivity |].
        symmetry. apply andb_false_intro2. apply Z.leb_gt. lia.
      * replace ((-9223372036854775808 <=? decVal ds 0)
                 && (decVal ds 0 <=? 9223372036854775807)) with true.
        -- rewrite wrap_id; [reflexivity |].
           unfold isInt, minInt, maxInt. lia.
        -- symmetry. apply andb_true_intro. split; apply Z.leb_le; lia.
    + replace ((-9223372036854775808 <=? - decVal ds 0)
               && (- decVal ds 0 <=? 9223372036854775807)) with false;
        [reflexivity |].
      symmetry. apply andb_false_intro1. apply Z.leb_gt. lia.
    + replace ((-9223372036854775808 <=? decVal ds 0)
               && (decVal ds 0 <=? 9223372036854775807)) with false;
        [reflexivity |].
      symmetry. apply andb_false_intro2. apply Z.leb_gt. lia.
  - intros Hbad.
    pose proof (parseUint_loop_bad ds Hbad 0) as Hs.
    pose proof (parseUint_loop_err ds 0) as He.
    destruct (parseUint_loop ds 0) as [un [[|] |]]; cbn [snd] in *;
      [discriminate | | congruence].
    subst un. destruct neg; cbn; discriminate.
Qed.

Lemma ParseInt_decimal (c : ascii) (s' : bytes) (neg : bool) (ds : bytes) :
  neg = byte_eqb c "-"%char ->
  ds = (if neg || byte_eqb c "+"%char then s' else c :: s') ->
  ds <> [] ->
  (forallb isDigit ds = true ->
   ParseInt (c :: s')
   = if (minInt <=? (if neg then - decVal ds 0 else decVal ds 0))
        && ((if neg then - decVal ds 0 else decVal ds 0) <=? maxInt)
     then (if neg then - decVal ds 0 else decVal ds 0, None)
     else (if neg then minInt else maxInt, Some ErrRange))
  /\ (forallb isDigit ds = false -> snd (ParseInt (c :: s')) <> None).
Proof.
  intros Hneg Hds Hne. unfold ParseInt. cbv zeta. rewrite <- Hneg.
  rewrite (orb_comm (byte_eqb c "+"%char) neg).
  destruct (neg || byte_eqb c "+"%char); rewrite <- Hds;
    apply ParseInt_core; exact Hne.
Qed.

Lemma small_decimal_in_range (ds : bytes) (neg : bool) :
  forallb isDigit ds = true ->
  (length ds < 19)%nat ->
  (minInt <=? (if neg then - decVal ds 0 else decVal ds 0))
  && ((if neg then - decVal ds 0 else decVal ds 0) <=? maxInt) = true.
Proof.
  intros Hdig Hlen.
  pose proof (decVal_lt ds Hdig 0 ltac:(lia)) as Hlt.
  pose proof (decVal_nonneg ds Hdig 0 ltac:(lia)) as Hge.
  assert (H18 : 10 ^ Z.of_nat (length ds) <= 10 ^ 18)
    by (apply Z.pow_le_mono_r; lia).
  change (10 ^ 18) with 1000000000000000000 in H18.
  apply andb_true_intro. unfold minInt, maxInt.
  destruct neg; split; apply Z.leb_le; lia.
Qed.

Lemma Atoi_body (c : ascii) (s' : bytes) (neg sgn : bool) (ds : bytes) :
  neg = byte_eqb c "-"%char ->
  sgn = neg || byte_eqb c "+"%char ->
  ds = (if sgn then s' else c :: s') ->
  ds <> [] ->
  match
    (if forallb isDigit ds then
       if (minInt <=? (if neg then - decVal ds 0 else decVal ds 0))
          && ((if neg then - decVal ds 0 else decVal ds 0) <=? maxInt)
       then Some (if neg then - decVal ds 0 else decVal ds 0)
       else None
     else None)
  with
  | Some v => Atoi (c :: s') = (v, None)
  | None => snd (Atoi (c :: s')) <> None
  end.
Proof.
  intros Hneg Hsgn Hds Hne.
  assert (Hds' : ds = (if neg || byte_eqb c "+"%char then s' else c :: s'))
    by (rewrite <- Hsgn; exact Hds).
  destruct (ParseInt_decimal c s' neg ds Hneg Hds' Hne) as [Pok Pbad].
  assert (Hlen : (length ds <= length (c :: s'))%nat)
    by (rewrite Hds; destruct sgn; cbn [length]; lia).
  assert (Efast :
    (0 <? length (c :: s'))%nat && (length (c :: s') <? 19)%nat = true ->
    Atoi (c :: s')
    = match atoi_fast_loop ds 0 with
      | None => (0, Some ErrSyntax)
      | Some n => (if neg then - n else n, None)
      end).
  { intros E. unfold Atoi. rewrite E. cbv zeta.
    rewrite <- Hneg, <- Hsgn.
    destruct sgn; rewrite <- Hds; cbn [andb];
      [| reflexivity].
    destruct ds as [| d ds']; [congruence | reflexivity]. }
  assert (Eslow :
    (0 <? length (c :: s'))%nat && (length (c :: s') <? 19)%nat = false ->
    Atoi (c :: s') = ParseInt (c :: s')).
  { intros E. unfold Atoi. rewrite E. reflexivity. }
  destruct ((0 <? length (c :: s'))%nat && (length (c :: s') <? 19)%nat)
    eqn:Epath.
  - rewrite (Efast eq_refl), atoi_fast_loop_char.
    destruct (forallb isDigit ds) eqn:Edig; [| cbn; discriminate].
    apply andb_prop in Epath. destruct Epath as [_ E19].
    apply Nat.ltb_lt in E19.
    rewrite (small_decimal_in_range ds neg Edig) by lia. reflexivity.
  - rewrite (Eslow eq_refl).
    destruct (forallb isDigit ds) eqn:Edig; [| apply Pbad; reflexivity].
    rewrite (Pok eq_refl).
    destruct ((minInt <=? (if neg then - decVal ds 0 else decVal ds 0))
              && ((if neg then - decVal ds 0 else decVal ds 0) <=? maxInt));
      [reflexivity | cbn; discriminate].
Qed.

Lemma Atoi_decimal (s : bytes) :
  match decimalValue s with
  | Some v => Atoi s = (v, None)
  | None => snd (Atoi s) <> None
  end.
Proof.
  destruct s as [| c s']; [cbn; discriminate |].
  unfold decimalValue. cbv zeta.
  destruct (byte_eqb c "-"%char || byte_eqb c "+"%char) eqn:Esgn.
  - destruct s' as [| d ds'].
    + unfold Atoi. cbn [length Nat.ltb Nat.leb andb]. rewrite Esgn.
      cbn. discriminate.
    + apply (Atoi_body c (d :: ds') (byte_eqb c "-"%char) true (d :: ds'));
        auto; discriminate.
  - apply (Atoi_body c s' (byte_eqb c "-"%char) false (c :: s'));
      auto; discriminate.
Qed.

(** X13. complete and delete read their argument as a task ID exactly when
    it is a decimal numeral, with an optional sign, that denotes a Go int;
    the ID is then that integer. *)
Theorem argument_is_decimal (arg : bytes) (id : Z) :
  Atoi arg = (id, None) <-> decimalValue arg = Some id.
Proof.
  pose proof (Atoi_decimal arg) as H.
  destruct (decimalValue arg) as [v |].
  - rewrite H. split; intros E; injection E as <-; reflexivity.
  - split; [| discriminate].
    intros E. rewrite E in H. exfalso. apply H. reflexivity.
Qed.

(** X14. Any other argument - not a numeral, or a numeral out of the int
    range - makes complete and delete return the invalid-ID error before
    the file is opened: the store is left exactly as it was, and an absent
    file is not created. *)
Theorem invalid_id_argument (arg : bytes) (w : World) :
  decimalValue arg = None ->
  completeCmd arg w = (Err (ErrInvalidID arg), w)
  /\ deleteCmd arg w = (Err (ErrInvalidID arg), w).
Proof.
  intros H. pose proof (Atoi_decimal arg) as HA. rewrite H in HA.
  unfold completeCmd, deleteCmd.
  destruct (Atoi arg) as [v [e |]]; [auto |].
  exfalso. apply HA. reflexivity.
Qed.

Lemma invalid_id_argument_witness :
  completeCmd (str "9223372036854775808") emptyStore
  = (Err (ErrInvalidID (str "9223372036854775808")), emptyStore)
  /\ deleteCmd (str "9223372036854775808") emptyStore
     = (Err (ErrInvalidID (str "9223372036854775808")), emptyStore).
Proof.
  apply (invalid_id_argument (str "9223372036854775808") emptyStore).
  vm_compute. reflexivity.
Defined.

(** ** Histories of add and complete *)

Lemma readLine_blank (rest : bytes) :
  readLine (LF :: rest) = Some ([LF], rest).
Proof. reflexivity. Qed.

Lemma readRecord_blank (n : nat) :
  forall fuel, (n < fuel)%nat -> readRecord fuel (repeat LF n) = RecEOF.
Proof.
  induction n as [| n IH]; intros fuel Hlt;
    (destruct fuel as [| fuel]; [lia |]).
  - reflexivity.
  - cbn [repeat readRecord]. rewrite readLine_blank.
    cbn [length lengthNL rev app Nat.eqb].
    change (byte_eqb LF LF) with true. cbn [Nat.eqb].
    apply IH. lia.
Qed.

Lemma readAll_loop_blank (records : list (list bytes)) (m : nat) :
  forall (n fuel : nat) (acc : list (list bytes)),
    (2 <= n)%nat ->
    Forall (plainRecord n) records ->
    (length records < fuel)%nat ->
    readAll_loop fuel (concat (map csvWrite records) ++ repeat LF m) n acc
    = CsvOk (acc ++ records).
Proof.
  induction records as [| r rs IH]; intros n fuel acc Hn Hall Hfuel;
    (destruct fuel as [| fuel]; [cbn [length] in Hfuel; lia |]).
  - cbn [map concat app readAll_loop].
    rewrite readRecord_blank by (rewrite repeat_length; lia).
    rewrite app_nil_r. reflexivity.
  - cbn [map concat readAll_loop]. rewrite <- app_assoc.
    destruct (Forall_inv Hall) as [Hlen HLF].
    rewrite readRecord_written by (auto; lia).
    assert (E1 : (0 <? n)%nat = true) by (apply Nat.ltb_lt; lia).
    assert (E2 : (length r =? n)%nat = true) by (apply Nat.eqb_eq; auto).
    rewrite E1, E2.
    rewrite IH; auto.
    + rewrite <- app_assoc. reflexivity.
    + apply (Forall_inv_tail Hall).
    + cbn [length] in Hfuel. lia.
Qed.

Lemma ReadAll_serialize_blank (tasks : list Task) (m : nat) :
  Forall (fun t => noLF (Description t)) tasks ->
  ReadAll (serialize tasks ++ repeat LF m)
  = CsvOk (header :: map encode tasks).
Proof.
  intros H. rewrite serialize_eq. unfold ReadAll.
  cbn [map concat readAll_loop]. rewrite <- app_assoc.
  rewrite readRecord_written
    by (cbn; try lia; apply header_plain).
  cbn [Nat.ltb Nat.leb].
  rewrite readAll_loop_blank.
  - reflexivity.
  - cbn. lia.
  - rewrite Forall_map. eapply Forall_impl; [| exact H].
    intros t Ht. apply encode_plain. exact Ht.
  - rewrite !length_app, length_map.
    pose proof (concat_csvWrite_length (map encode tasks)) as Hc.
    rewrite length_map in Hc. unfold csvWrite at 1.
    rewrite length_app. cbn [length]. lia.
Qed.

Lemma storable_noLF (l : list Task) :
  Forall storable l -> Forall (fun t => noLF (Description t)) l.
Proof. intros H. eapply Forall_impl; [| exact H]. intros t Ht. apply Ht. Qed.

Lemma Forall_storable_writable (l : list Task) :
  Forall storable l -> Forall writable l.
Proof.
  intros H. eapply Forall_impl; [| exact H]. apply storable_writable.
Qed.

Lemma loadTasks_settled (w : World) (l : list Task) :
  settled w l -> fst (loadTasks w) = Ok l.
Proof.
  intros [Hst [[n Hd] | [-> Hfresh]]]; rewrite loadTasks_fst.
  - unfold fileContent. rewrite Hd.
    rewrite ReadAll_serialize_blank by (apply storable_noLF; exact Hst).
    cbn [tl].
    rewrite decodeAll_encode by (apply Forall_storable_writable; exact Hst).
    rewrite map_reload_storable by exact Hst. reflexivity.
  - unfold fileContent. destruct Hfresh as [E | E]; rewrite E; reflexivity.
Qed.

Lemma skipn_repeat (k n : nat) (c : ascii) :
  skipn k (repeat c n) = repeat c (n - k).
Proof.
  revert k. induction n as [| n IH]; intros [| k]; simpl; auto.
Qed.

Lemma settled_content (w : World) (l : list Task) :
  settled w l ->
  fileContent w = [] \/ exists n, fileContent w = serialize l ++ repeat LF n.
Proof.
  intros [_ [[n Hd] | [_ [E | E]]]]; unfold fileContent; rewrite ?Hd, ?E;
    eauto.
Qed.

Lemma serialize_ends_LF (l : list Task) :
  exists body, serialize l = body ++ [LF].
Proof.
  destruct l as [| t l].
  - exists (writeFields header). reflexivity.
  - destruct (exists_last (l := t :: l) ltac:(discriminate))
      as (l0 & t0 & ->).
    exists (serialize l0 ++ writeFields (encode t0)).
    rewrite serialize_app. unfold csvWrite. rewrite app_assoc. reflexivity.
Qed.

Lemma overwrite_grow (c s line : bytes) :
  (c = [] \/ exists n, c = s ++ repeat LF n) ->
  exists n', overwrite c (s ++ line) = (s ++ line) ++ repeat LF n'.
Proof.
  intros [-> | [n ->]]; unfold overwrite.
  - exists 0%nat. rewrite skipn_nil. reflexivity.
  - exists (n - length line)%nat.
    rewrite skipn_app, skipn_all2 by (rewrite length_app; lia).
    rewrite skipn_repeat, length_app. cbn [app].
    do 2 f_equal. lia.
Qed.

Lemma overwrite_shorter (body new : bytes) (n : nat) :
  length new = length (body ++ [LF]) \/ S (length new) = length (body ++ [LF]) ->
  exists n',
    overwrite ((body ++ [LF]) ++ repeat LF n) new = new ++ repeat LF n'.
Proof.
  rewrite length_app. cbn [length]. intros [H | H]; unfold overwrite.
  - exists n. rewrite skipn_app, skipn_all2
      by (rewrite length_app; cbn [length]; lia).
    rewrite length_app. cbn [length app].
    replace (length new - (length body + 1))%nat with 0%nat by lia.
    reflexivity.
  - exists (S n). rewrite <- app_assoc.
    replace (length new) with (length body) by lia.
    rewrite skipn_app, skipn_all, Nat.sub_diag. reflexivity.
Qed.

Lemma writeField_FormatBool (b : bool) :
  writeField (FormatBool b) = FormatBool b.
Proof. destruct b; reflexivity. Qed.

Lemma csvWrite_encode_length (i : Z) (d : bytes) (c : Time) (b : bool) :
  (length (csvWrite (encode (mkTask i d c true))) + (if b then 0 else 1)
   = length (csvWrite (encode (mkTask i d c b))))%nat.
Proof.
  unfold csvWrite, encode. cbn [ID Description CreatedAt IsCompleted].
  cbn [writeFields]. rewrite !writeField_FormatBool.
  rewrite !length_app. cbn [length]. rewrite !length_app. cbn [length].
  rewrite !length_app. cbn [length].
  destruct b; cbn [FormatBool str list_ascii_of_string length]; lia.
Qed.

Lemma serialize_split (pre post : list Task) (t : Task) :
  serialize (pre ++ t :: post)
  = serialize pre ++ csvWrite (encode t)
      ++ concat (map (fun task => csvWrite (encode task)) post).
Proof.
  unfold serialize. rewrite map_app, concat_app. cbn [map concat].
  rewrite <- app_assoc. reflexivity.
Qed.

Lemma complete_loop_found (id : Z) (l : list Task) :
  forall l',
    complete_loop id l = (l', true) ->
    exists pre t post,
      l = pre ++ t :: post
      /\ l' = pre ++ mkTask (ID t) (Description t) (CreatedAt t) true :: post.
Proof.
  induction l as [| t l IH]; intros l' H; cbn [complete_loop] in H;
    [discriminate |].
  destruct (ID t =? id).
  - injection H as <-. exists [], t, l. auto.
  - destruct (complete_loop id l) as [rest' found].
    injection H as <- ->.
    destruct (IH rest' eq_refl) as (pre & t0 & post & -> & ->).
    exists (t :: pre), t0, post. auto.
Qed.

Lemma complete_serialize_length (pre post : list Task) (t : Task) :
  let l' := pre ++ mkTask (ID t) (Description t) (CreatedAt t) true :: post in
  length (serialize l') = length (serialize (pre ++ t :: post))
  \/ S (length (serialize l')) = length (serialize (pre ++ t :: post)).
Proof.
  cbv zeta. rewrite !serialize_split, !length_app.
  pose proof (csvWrite_encode_length (ID t) (Description t) (CreatedAt t)
                (IsCompleted t)) as H.
  destruct t as [i d c b]. cbn [ID Description CreatedAt IsCompleted] in *.
  destruct b; [left | right]; lia.
Qed.

Lemma settled_loadTasks (w : World) (l : list Task) :
  settled w l -> settled (snd (loadTasks w)) l.
Proof.
  intros [Hst H]. split; [exact Hst |].
  rewrite loadTasks_snd. cbn [disk]. unfold fileContent.
  destruct H as [[n Hd] | [-> [E | E]]]; rewrite ?Hd, ?E; eauto.
Qed.

Lemma add_settled (d : bytes) (now : Time) (w : World) (l : list Task) :
  settled w l -> noLF d -> clockTime now ->
  fst (addCmd d now w) = Ok (Added (getNextID l) d)
  /\ settled (snd (addCmd d now w))
       (l ++ [mkTask (getNextID l) d (truncSecond now) false])
  /\ saves (snd (addCmd d now w))
     = saves w ++ [l ++ [mkTask (getNextID l) d now false]].
Proof.
  intros Hs Hd Hnow.
  pose proof (loadTasks_settled w l Hs) as Hload.
  pose proof (settled_content w l Hs) as Hc.
  unfold addCmd. rewrite (loadTasks_pair w), Hload. cbn [fst snd ID].
  split; [reflexivity | split].
  - split.
    + apply Forall_app. split; [apply Hs |].
      constructor; [| constructor].
      split; [apply wrap_isInt | split; [exact Hd |]].
      split; [| reflexivity].
      unfold clockTime in *. cbn [CreatedAt truncSecond year month day hour
        minute second nsec offset]. intuition lia.
    + left. rewrite disk_saveTasks, loadTasks_snd. cbn [disk].
      rewrite (serialize_app l (mkTask (getNextID l) d (truncSecond now) false)).
      rewrite serialize_app.
      change (encode (mkTask (getNextID l) d (truncSecond now) false))
        with (encode (mkTask (getNextID l) d now false)).
      destruct (overwrite_grow (fileContent w) (serialize l)
                  (csvWrite (encode (mkTask (getNextID l) d now false))) Hc)
        as [n' E].
      exists n'. rewrite E. reflexivity.
  - rewrite saves_saveTasks, saves_loadTasks. reflexivity.
Qed.

Lemma complete_settled (id : Z) (w : World) (l l' : list Task) :
  settled w l ->
  complete_loop id l = (l', true) ->
  settled (saveTasks l' (snd (loadTasks w))) l' /\ map ID l' = map ID l.
Proof.
  intros Hs Hc.
  destruct (complete_loop_found id l l' Hc) as (pre & t & post & -> & ->).
  split.
  - split.
    + destruct Hs as [Hst _].
      apply Forall_app in Hst. destruct Hst as [Hpre Hrest].
      apply Forall_app. split; [exact Hpre |].
      constructor; [| apply (Forall_inv_tail Hrest)].
      apply (Forall_inv Hrest).
    + left. rewrite disk_saveTasks, loadTasks_snd. cbn [disk].
      destruct Hs as [_ [[n Hd] | [Habs _]]];
        [| destruct pre; discriminate Habs].
      unfold fileContent. rewrite Hd.
      destruct (serialize_ends_LF (pre ++ t :: post)) as [body Eb].
      pose proof (complete_serialize_length pre post t) as Hlen.
      cbv zeta in Hlen. rewrite Eb in Hlen |- *.
      destruct (overwrite_shorter body _ n Hlen) as [n' E].
      exists n'. rewrite E. reflexivity.
  - rewrite !map_app. reflexivity.
Qed.

Lemma seqZ_NoDup (k : nat) : NoDup (map Z.of_nat (seq 1 k)).
Proof.
  apply Injective_map_NoDup; [| apply seq_NoDup].
  intros a b. apply Nat2Z.inj.
Qed.

Lemma run_edits (history : list edit) :
  forall (w : World) (l : list Task),
    settled w l ->
    Forall editable history ->
    fst (run (map editOp history) w) = fst (editsList history l)
    /\ settled (snd (run (map editOp history) w)) (snd (editsList history l)).
Proof.
  induction history as [| e history IH]; intros w l Hs He; [cbn; auto |].
  assert (Hstep : fst (runOp (editOp e) w) = fst (editList e l)
                  /\ settled (snd (runOp (editOp e) w)) (snd (editList e l))).
  { destruct e as [d now | arg]; cbn [editOp runOp editList].
    - destruct (Forall_inv He) as [Hd Hnow].
      destruct (add_settled d now w l Hs Hd Hnow) as (H1 & H2 & _). auto.
    - unfold completeCmd. destruct (Atoi arg) as [id [err |]]; [auto |].
      rewrite (loadTasks_pair w), (loadTasks_settled w l Hs).
      destruct (complete_loop id l) as [l' found] eqn:Ec.
      destruct found; cbn [negb fst snd].
      + split; [reflexivity |]. apply (complete_settled id w l l' Hs Ec).
      + split; [reflexivity |]. apply settled_loadTasks. exact Hs. }
  destruct Hstep as [H1 H2].
  cbn [map run editsList].
  destruct (runOp (editOp e) w) as [r w1].
  destruct (editList e l) as [r' l1]. cbn [fst snd] in *.
  destruct (IH w1 l1 H2 (Forall_inv_tail He)) as [I1 I2].
  destruct (run (map editOp history) w1) as [rs w2].
  destruct (editsList history l1) as [rs' l2]. cbn [fst snd] in *.
  split; [congruence | exact I2].
Qed.

Lemma settled_fresh (w : World) : freshStore w -> settled w [].
Proof.
  intros [E | [E | E]]; (split; [apply Forall_nil |]).
  - right. auto.
  - right. auto.
  - left. exists 0%nat. rewrite E. cbn [repeat]. rewrite app_nil_r.
    reflexivity.
Qed.

(** X15. Without delete the store works as a list.  From a fresh store, a
    history of adds (single-line descriptions, clock readings the layout
    can carry) and completes (any argument) returns, command by command,
    what the in-memory code of the commands returns on the list of stored
    tasks, and the file then loads as that list: the blank line a complete
    leaves at the end of the file is skipped by the reader. *)
Theorem edits_act_on_the_list (history : list edit) (w : World) :
  freshStore w ->
  Forall editable history ->
  fst (run (map editOp history) w) = fst (editsList history [])
  /\ fst (loadTasks (snd (run (map editOp history) w)))
     = Ok (snd (editsList history [])).
Proof.
  intros Hf He.
  destruct (run_edits history w [] (settled_fresh w Hf) He) as [H1 H2].
  split; [exact H1 | apply loadTasks_settled; exact H2].
Qed.

Lemma edits_act_on_the_list_witness :
  fst (run (map editOp [EditAdd (str "buy milk") sampleTimeNs;
                        EditAdd (str "walk dog") sampleTime;
                        EditComplete (str "1");
                        EditComplete (str "5")]) emptyStore)
  = [Ok (Added 1 (str "buy milk")); Ok (Added 2 (str "walk dog"));
     Ok (Completed 1); Err (ErrNotFound 5)]
  /\ fst (loadTasks
            (snd (run (map editOp [EditAdd (str "buy milk") sampleTimeNs;
                                   EditAdd (str "walk dog") sampleTime;
                                   EditComplete (str "1");
                                   EditComplete (str "5")]) emptyStore)))
     = Ok [mkTask 1 (str "buy milk") sampleTime true;
           mkTask 2 (str "walk dog") sampleTime false].
Proof.
  apply (edits_act_on_the_list
           [EditAdd (str "buy milk") sampleTimeNs;
            EditAdd (str "walk dog") sampleTime;
            EditComplete (str "1"); EditComplete (str "5")] emptyStore).
  - left. reflexivity.
  - repeat (apply Forall_cons || apply Forall_nil); cbn [editable];
      try exact I;
      (split; [no_line_feed |]);
      unfold clockTime; simpl; repeat split; by_eval.
Defined.

Lemma edit_step (e : edit) (w : World) (l : list Task) (k : nat) :
  settled w l ->
  editable e ->
  map ID l = map Z.of_nat (seq 1 k) ->
  Z.of_nat (k + countAdds [e]) < maxInt ->
  settled (snd (runOp (editOp e) w)) (snd (editList e l))
  /\ map ID (snd (editList e l)) = map Z.of_nat (seq 1 (k + countAdds [e]))
  /\ exists newSaves,
       saves (snd (runOp (editOp e) w)) = saves w ++ newSaves
       /\ Forall distinctIDs newSaves.
Proof.
  intros Hs He Hids Hk.
  destruct e as [d now | arg]; cbn [editOp runOp editList countAdds] in *.
  - destruct He as [Hd Hnow].
    destruct (add_settled d now w l Hs Hd Hnow) as (_ & H2 & H3).
    assert (Hnext : getNextID l = Z.of_nat (S k))
      by (apply getNextID_counts; [exact Hids | lia]).
    assert (Hids1 : forall tm,
      map ID (l ++ [mkTask (getNextID l) d tm false])
      = map Z.of_nat (seq 1 (k + 1))).
    { intros tm. rewrite map_app, Hids, Hnext. cbn [map ID].
      replace (k + 1)%nat with (S k) by lia.
      rewrite seq_S, map_app. reflexivity. }
    cbn [snd]. split; [exact H2 | split; [apply Hids1 |]].
    exists [l ++ [mkTask (getNextID l) d now false]].
    split; [exact H3 |].
    constructor; [| constructor].
    unfold distinctIDs. rewrite Hids1. apply seqZ_NoDup.
  - rewrite Nat.add_0_r. unfold completeCmd.
    destruct (Atoi arg) as [id [err |]].
    + cbn [snd]. split; [exact Hs | split; [exact Hids |]].
      exists []. rewrite app_nil_r. split; [reflexivity | constructor].
    + rewrite (loadTasks_pair w), (loadTasks_settled w l Hs).
      destruct (complete_loop id l) as [l' found] eqn:Ec.
      destruct found; cbn [negb fst snd].
      * destruct (complete_settled id w l l' Hs Ec) as [H1 H2].
        split; [exact H1 | split; [congruence |]].
        exists [l']. rewrite saves_saveTasks, saves_loadTasks.
        split; [reflexivity |]. constructor; [| constructor].
        unfold distinctIDs. rewrite H2, Hids. apply seqZ_NoDup.
      * split; [apply settled_loadTasks; exact Hs | split; [exact Hids |]].
        exists []. rewrite saves_loadTasks, app_nil_r.
        split; [reflexivity | constructor].
Qed.

Lemma countAdds_cons (e : edit) (history : list edit) :
  countAdds (e :: history) = (countAdds [e] + countAdds history)%nat.
Proof. destruct e; cbn [countAdds]; lia. Qed.

Lemma run_edits_ids (history : list edit) :
  forall (w : World) (l : list Task) (k : nat),
    settled w l ->
    Forall editable history ->
    map ID l = map Z.of_nat (seq 1 k) ->
    Z.of_nat (k + countAdds history) < maxInt ->
    map ID (snd (editsList history l))
    = map Z.of_nat (seq 1 (k + countAdds history))
    /\ exists newSaves,
         saves (snd (run (map editOp history) w)) = saves w ++ newSaves
         /\ Forall distinctIDs newSaves.
Proof.
  induction history as [| e history IH]; intros w l k Hs He Hids Hk.
  - cbn [editsList run map snd countAdds]. rewrite Nat.add_0_r.
    split; [exact Hids |]. exists []. rewrite app_nil_r.
    split; [reflexivity | constructor].
  - rewrite countAdds_cons in Hk |- *.
    destruct (edit_step e w l k Hs (Forall_inv He) Hids ltac:(lia))
      as (H1 & H2 & ns & H3 & H4).
    cbn [map run editsList].
    destruct (runOp (editOp e) w) as [r w1].
    destruct (editList e l) as [r' l1]. cbn [fst snd] in *.
    destruct (IH w1 l1 (k + countAdds [e])%nat H1 (Forall_inv_tail He) H2
                ltac:(lia)) as (I1 & ns' & I2 & I3).
    destruct (run (map editOp history) w1) as [rs w2].
    destruct (editsList history l1) as [rs' l2]. cbn [fst snd] in *.
    split.
    + rewrite I1. do 2 f_equal. lia.
    + exists (ns ++ ns'). split.
      * rewrite I2, H3, <- app_assoc. reflexivity.
      * apply Forall_app. auto.
Qed.

(** X16. Without delete the IDs stay distinct.  From a fresh store, after
    a history of adds and completes as in X15 (with fewer adds than the
    largest int), the stored tasks have the IDs 1, 2, ... in file order,
    one per add, and every list that was saved on the way has pairwise
    distinct IDs. *)
Theorem edits_keep_ids_distinct (history : list edit) (w : World) :
  freshStore w ->
  Forall editable history ->
  Z.of_nat (countAdds history) < maxInt ->
  (exists tasks,
      fst (loadTasks (snd (run (map editOp history) w))) = Ok tasks
      /\ map ID tasks = map Z.of_nat (seq 1 (countAdds history))
      /\ distinctIDs tasks)
  /\ exists newSaves,
       saves (snd (run (map editOp history) w)) = saves w ++ newSaves
       /\ Forall distinctIDs newSaves.
Proof.
  intros Hf He Hk.
  destruct (run_edits history w [] (settled_fresh w Hf) He) as [_ Hs].
  destruct (run_edits_ids history w [] 0%nat (settled_fresh w Hf) He eq_refl
              ltac:(cbn [Nat.add]; exact Hk)) as (Hids & Hsaves).
  cbn [Nat.add] in Hids.
  split; [| exact Hsaves].
  exists (snd (editsList history [])).
  split; [apply loadTasks_settled; exact Hs | split; [exact Hids |]].
  unfold distinctIDs. rewrite Hids. apply seqZ_NoDup.
Qed.

Lemma edits_keep_ids_distinct_witness :
  exists newSaves,
    saves (snd (run (map editOp [EditAdd (str "buy milk") sampleTimeNs;
                                 EditAdd (str "walk dog") sampleTime;
                                 EditComplete (str "1")]) emptyStore))
    = [] ++ newSaves
    /\ Forall distinctIDs newSaves.
Proof.
  apply (edits_keep_ids_distinct
           [EditAdd (str "buy milk") sampleTimeNs;
            EditAdd (str "walk dog") sampleTime;
            EditComplete (str "1")] emptyStore).
  - left. reflexivity.
  - repeat (apply Forall_cons || apply Forall_nil); cbn [editable];
      try exact I;
      (split; [no_line_feed |]);
      unfold clockTime; simpl; repeat split; by_eval.
  - unfold maxInt. simpl. lia.
Defined.

(** ** Records with fewer than four fields *)

Lemma decode_short (r : list bytes) :
  (length r < 4)%nat ->
  exists i, decode r = Panic (IndexOutOfRange i (length r)) /\ (i < 4)%nat.
Proof.
  intros H. destruct r as [| f0 [| f1 [| f2 [| f3 rest]]]];
    cbn [length] in H; try lia.
  - exists 0%nat. split; [reflexivity | lia].
  - exists 2%nat. split; [reflexivity | lia].
  - exists 2%nat. split; [reflexivity | lia].
  - exists 3%nat. split; [reflexivity | lia].
Qed.

Lemma decodeAll_short (records : list (list bytes)) :
  Exists (fun r => (length r < 4)%nat) records ->
  forall acc,
    exists i len,
      decodeAll records acc = Panic (IndexOutOfRange i len)
      /\ (i < 4)%nat /\ (len < 4)%nat.
Proof.
  induction records as [| r records IH]; intros Hex acc;
    [inversion Hex |].
  cbn [decodeAll].
  destruct (Nat.lt_ge_cases (length r) 4) as [Hshort | Hlong].
  - destruct (decode_short r Hshort) as (i & E & Hi).
    rewrite E. cbn [bindR]. exists i, (length r). auto.
  - destruct r as [| f0 [| f1 [| f2 [| f3 rest]]]];
      cbn [length] in Hlong; try lia.
    rewrite decode_four. cbn [bindR]. apply IH.
    inversion Hex as [? ? Hr | ? ? Ht]; subst; [| exact Ht].
    cbn [length] in Hr. lia.
Qed.

(** X17. A stream the CSV reader accepts can still stop the load: when a
    record after the first has fewer than four fields - the reader only
    checks that every record has as many fields as the first - loadTasks
    stops in an index-out-of-range panic and returns neither tasks nor an
    error. *)
Theorem short_record_panics (w : World) (records : list (list bytes)) :
  ReadAll (fileContent w) = CsvOk records ->
  Exists (fun r => (length r < 4)%nat) (tl records) ->
  exists i len,
    fst (loadTasks w) = Panic (IndexOutOfRange i len)
    /\ (i < 4)%nat /\ (len < 4)%nat.
Proof.
  intros E Hex. rewrite loadTasks_fst, E.
  apply decodeAll_short. exact Hex.
Qed.

Lemma short_record_panics_witness :
  exists i len,
    fst (loadTasks (mkWorld (Some (str "ID,Task" ++ LF :: str "7,a" ++ [LF]))
                      []))
    = Panic (IndexOutOfRange i len)
    /\ (i < 4)%nat /\ (len < 4)%nat.
Proof.
  apply (short_record_panics
           (mkWorld (Some (str "ID,Task" ++ LF :: str "7,a" ++ [LF])) [])
           [[str "ID"; str "Task"]; [str "7"; str "a"]]).
  - vm_compute. reflexivity.
  - apply Exists_cons_hd. cbn [length]. lia.
Defined.

(** ** Saving twice, completing twice *)

(** X18. saveTasks is idempotent on the file: saving the same list a second
    time changes no byte. *)
Theorem save_is_idempotent (tasks : list Task) (w : World) :
  disk (saveTasks tasks (saveTasks tasks w)) = disk (saveTasks tasks w).
Proof.
  rewrite (disk_saveTasks tasks (saveTasks tasks w)), disk_saveTasks.
  unfold overwrite at 2. rewrite overwrite_prefix. reflexivity.
Qed.

Lemma complete_loop_found_first (id : Z) (l : list Task) :
  forall l',
    complete_loop id l = (l', true) ->
    exists pre t post,
      l = pre ++ t :: post
      /\ l' = pre ++ mkTask (ID t) (Description t) (CreatedAt t) true :: post
      /\ Forall (fun x => ID x <> id) pre
      /\ ID t = id.
Proof.
  induction l as [| t l IH]; intros l' H; cbn [complete_loop] in H;
    [discriminate |].
  destruct (ID t =? id) eqn:E.
  - injection H as <-. apply Z.eqb_eq in E. exists [], t, l. auto.
  - destruct (complete_loop id l) as [rest' found].
    injection H as <- ->. apply Z.eqb_neq in E.
    destruct (IH rest' eq_refl) as (pre & t0 & post & -> & -> & Hpre & Ht).
    exists (t :: pre), t0, post. auto.
Qed.

Lemma complete_loop_again (id : Z) (l l' : list Task) :
  complete_loop id l = (l', true) -> complete_loop id l' = (l', true).
Proof.
  intros H.
  destruct (complete_loop_found_first id l l' H)
    as (pre & t & post & _ & -> & Hpre & Ht).
  apply (complete_loop_first id pre post
           (mkTask (ID t) (Description t) (CreatedAt t) true) Hpre Ht).
Qed.

Lemma settled_nonempty (w : World) (l : list Task) :
  settled w l -> l <> [] ->
  exists n, disk w = Some (serialize l ++ repeat LF n).
Proof. intros [_ [H | [E _]]] Hne; [exact H | contradiction]. Qed.

Lemma completeCmd_found (arg : bytes) (w : World) (l l' : list Task)
    (id : Z) :
  settled w l -> Atoi arg = (id, None) ->
  complete_loop id l = (l', true) ->
  completeCmd arg w = (Ok (Completed id), saveTasks l' (snd (loadTasks w))).
Proof.
  intros Hs Ea Ec. unfold completeCmd. rewrite Ea.
  rewrite (loadTasks_pair w), (loadTasks_settled w l Hs), Ec.
  reflexivity.
Qed.

Lemma completeCmd_Ok (arg : bytes) (w : World) (l : list Task) (id : Z) :
  settled w l ->
  fst (completeCmd arg w) = Ok (Completed id) ->
  Atoi arg = (id, None) /\ exists l', complete_loop id l = (l', true).
Proof.
  intros Hs. unfold completeCmd.
  destruct (Atoi arg) as [id' [err |]] eqn:Ea; [discriminate |].
  rewrite (loadTasks_pair w), (loadTasks_settled w l Hs).
  destruct (complete_loop id' l) as [l' found] eqn:Ec.
  destruct found; cbn [negb fst snd]; [| discriminate].
  intros Hid. injection Hid as ->. split; [reflexivity |].
  exists l'. exact Ec.
Qed.

(** X19. complete is idempotent.  In a store that holds a list of tasks
    (the file saveTasks wrote for it, possibly followed by blank lines), a
    complete that succeeded can be repeated: it succeeds again, saves the
    same list and changes no byte of the file. *)
Theorem complete_again_changes_nothing (arg : bytes) (w : World)
    (l : list Task) (id : Z) :
  settled w l ->
  fst (completeCmd arg w) = Ok (Completed id) ->
  fst (completeCmd arg (snd (completeCmd arg w))) = Ok (Completed id)
  /\ disk (snd (completeCmd arg (snd (completeCmd arg w))))
     = disk (snd (completeCmd arg w)).
Proof.
  intros Hs Hok.
  destruct (completeCmd_Ok arg w l id Hs Hok) as (Ea & l' & Ec).
  rewrite (completeCmd_found arg w l l' id Hs Ea Ec). cbn [snd].
  destruct (complete_settled id w l l' Hs Ec) as [Hs' _].
  set (w1 := saveTasks l' (snd (loadTasks w))) in *.
  assert (Hne : l' <> []).
  { destruct (complete_loop_found id l l' Ec) as (pre & t & post & _ & ->).
    destruct pre; discriminate. }
  destruct (settled_nonempty w1 l' Hs' Hne) as [n Hd].
  rewrite (completeCmd_found arg w1 l' l' id Hs' Ea
             (complete_loop_again id l l' Ec)).
  cbn [fst snd]. split; [reflexivity |].
  rewrite disk_saveTasks, loadTasks_snd. cbn [disk].
  unfold fileContent. rewrite Hd, overwrite_prefix. reflexivity.
Qed.

Lemma complete_again_changes_nothing_witness :
  fst (completeCmd (str "1")
         (snd (completeCmd (str "1") (storeOf [taskA; taskB]))))
  = Ok (Completed 1)
  /\ disk (snd (completeCmd (str "1")
                  (snd (completeCmd (str "1") (storeOf [taskA; taskB])))))
     = disk (snd (completeCmd (str "1") (storeOf [taskA; taskB]))).
Proof.
  apply (complete_again_changes_nothing (str "1") (storeOf [taskA; taskB])
           [taskA; taskB] 1).
  - split.
    + exact (Forall_cons _ storable_taskA
               (Forall_cons _ storable_taskB (Forall_nil _))).
    + left. exists 0%nat. cbn [repeat]. rewrite app_nil_r. reflexivity.
  - vm_compute. reflexivity.
Defined.

(** ** The ID that add prints *)

Lemma complete_loop_snd (id : Z) (l : list Task) :
  snd (complete_loop id l) = existsb (fun t => ID t =? id) l.
Proof.
  induction l as [| t l IH]; cbn [complete_loop existsb]; [reflexivity |].
  destruct (ID t =? id); [reflexivity |].
  destruct (complete_loop id l) as [rest' found]. exact IH.
Qed.

(** X20. The ID that add prints can be handed back.  In a store that holds
    a list of tasks, after an add (single-line description, a clock reading
    the layout can carry) the decimal text of the ID it reported is
    accepted by complete and by delete, which find a task with that ID and
    succeed. *)
Theorem added_id_is_found (d : bytes) (now : Time) (w : World)
    (l : list Task) :
  settled w l -> noLF d -> clockTime now ->
  fst (addCmd d now w) = Ok (Added (getNextID l) d)
  /\ fst (completeCmd (Itoa (getNextID l)) (snd (addCmd d now w)))
     = Ok (Completed (getNextID l))
  /\ fst (deleteCmd (Itoa (getNextID l)) (snd (addCmd d now w)))
     = Ok (Deleted (getNextID l)).
Proof.
  intros Hs Hd Hnow.
  destruct (add_settled d now w l Hs Hd Hnow) as (H1 & H2 & _).
  set (w1 := snd (addCmd d now w)) in *.
  set (l1 := l ++ [mkTask (getNextID l) d (truncSecond now) false]) in *.
  assert (Hex : existsb (fun t => ID t =? getNextID l) l1 = true).
  { apply existsb_exists.
    exists (mkTask (getNextID l) d (truncSecond now) false). split.
    - apply in_or_app. right. left. reflexivity.
    - apply Z.eqb_refl. }
  split; [exact H1 | split].
  - unfold completeCmd. rewrite (Atoi_Itoa (getNextID l) (wrap_isInt _)).
    rewrite (loadTasks_pair w1), (loadTasks_settled w1 l1 H2).
    pose proof (complete_loop_snd (getNextID l) l1) as Hf.
    destruct (complete_loop (getNextID l) l1) as [l' found].
    cbn [snd] in Hf. rewrite Hf, Hex. reflexivity.
  - unfold deleteCmd. rewrite (Atoi_Itoa (getNextID l) (wrap_isInt _)).
    rewrite (loadTasks_pair w1), (loadTasks_settled w1 l1 H2).
    assert (Ecap : (Z.of_nat (length l1) - 1 <? 0) = false).
    { apply Z.ltb_ge. unfold l1. rewrite length_app. cbn [length]. lia. }
    rewrite Ecap, delete_loop_filter, Hex. reflexivity.
Qed.

Lemma added_id_is_found_witness :
  fst (addCmd (str "c") sampleTimeNs (storeOf [taskA; taskB]))
  = Ok (Added (getNextID [taskA; taskB]) (str "c"))
  /\ fst (completeCmd (Itoa (getNextID [taskA; taskB]))
            (snd (addCmd (str "c") sampleTimeNs (storeOf [taskA; taskB]))))
     = Ok (Completed (getNextID [taskA; taskB]))
  /\ fst (deleteCmd (Itoa (getNextID [taskA; taskB]))
            (snd (addCmd (str "c") sampleTimeNs (storeOf [taskA; taskB]))))
     = Ok (Deleted (getNextID [taskA; taskB])).
Proof.
  apply (added_id_is_found (str "c") sampleTimeNs (storeOf [taskA; taskB])
           [taskA; taskB]).
  - split.
    + exact (Forall_cons _ storable_taskA
               (Forall_cons _ storable_taskB (Forall_nil _))).
    + left. exists 0%nat. cbn [repeat]. rewrite app_nil_r. reflexivity.
  - no_line_feed.
  - unfold clockTime; simpl; repeat split; by_eval.
Defined.
